(** * simpleblockchain: the ledger engine

    A shallow embedding of the chain engine (block validation, difficulty
    retargeting, chain replacement) and of the transaction / UTXO engine
    (transaction validation, coinbase validation, UTXO transitions).  The
    chain engine is the module that the other files import as
    [./blockchain] (its text follows the peer-to-peer code in
    [tsblockchain/src/p2p.ts]); the transaction engine is the module they
    import as [./transaction].

    Modelling conventions.
    - JavaScript numbers that the engine uses as block indices, timestamps,
      difficulties, nonces, output indices and amounts are integers, modelled
      as [Z]; [Math.pow(2, d)] is modelled exactly in [Q]; IEEE rounding and
      overflow are outside the model.
    - JavaScript strings are [string] (byte strings; the engine only handles
      ASCII text).
    - [null] / [undefined] results are [option]; a thrown exception is the
      [Throw] case of [result].
    - The module-level variables [blockchain] and [unspentTxOuts] (and the
      transaction pool) are the fields of a ledger state; every operation
      that reads or writes them takes the state explicitly.  Arrays are
      modelled by value: the engine never changes an array or object after
      handing it out, except for [blockchain.push], which is the append of
      [addBlockToChain].
    - Blocks and transactions have the declared types; the run-time objects
      behind them ([Block_toJs] and the like) list their properties in the
      order in which the constructors and literals of the program create
      them, which is the order [JSON.stringify] prints.
    - [console.log] and the peer-to-peer broadcasts have no influence on the
      ledger state and are left out. *)

From Stdlib Require Import ZArith List String Ascii Bool Lia.
From Stdlib Require Import DecimalString DecimalPos DecimalZ QArith Qpower.
Import ListNotations.
Local Open Scope string_scope.
Local Open Scope Z_scope.

(** ** SHA-256 (FIPS 180-4), as computed by [CryptoJS.SHA256(s).toString()] *)

Module SHA256.

Definition wrap32 (x : Z) : Z := x mod 2 ^ 32.
Definition add32 (x y : Z) : Z := wrap32 (x + y).
Definition rotr (n x : Z) : Z :=
  Z.lor (Z.shiftr x n) (wrap32 (Z.shiftl x (32 - n))).
Definition not32 (x : Z) : Z := Z.lxor x 0xffffffff.

Definition Ch (x y z : Z) : Z := Z.lxor (Z.land x y) (Z.land (not32 x) z).
Definition Maj (x y z : Z) : Z :=
  Z.lxor (Z.lxor (Z.land x y) (Z.land x z)) (Z.land y z).
Definition bigSigma0 (x : Z) : Z :=
  Z.lxor (Z.lxor (rotr 2 x) (rotr 13 x)) (rotr 22 x).
Definition bigSigma1 (x : Z) : Z :=
  Z.lxor (Z.lxor (rotr 6 x) (rotr 11 x)) (rotr 25 x).
Definition smallSigma0 (x : Z) : Z :=
  Z.lxor (Z.lxor (rotr 7 x) (rotr 18 x)) (Z.shiftr x 3).
Definition smallSigma1 (x : Z) : Z :=
  Z.lxor (Z.lxor (rotr 17 x) (rotr 19 x)) (Z.shiftr x 10).

(** The constants are fractional parts of roots of the first primes:
    [K] holds the first 32 bits of the fractional parts of the cube roots
    of the first 64 primes, the initial hash value those of the square
    roots of the first 8 primes. *)
Definition isPrime (p : Z) : bool :=
  forallb (fun d => negb (p mod Z.of_nat d =? 0))
          (seq 2 (Z.to_nat p - 2)).

Definition primes : list Z :=
  Eval vm_compute in
    filter isPrime (map Z.of_nat (seq 2 310)).

(** The largest [r + x] with [x < 2 ^ (bits + 1)] and [(r + x) ^ 3 <= n]. *)
Fixpoint cubeRootFrom (bits : nat) (n r : Z) : Z :=
  let r' := if (r + 2 ^ Z.of_nat bits) ^ 3 <=? n
            then r + 2 ^ Z.of_nat bits else r in
  match bits with
  | O => r'
  | S bits' => cubeRootFrom bits' n r'
  end.

Definition fracCubeRoot (p : Z) : Z :=
  wrap32 (cubeRootFrom 40 (p * 2 ^ 96) 0).

Definition fracSquareRoot (p : Z) : Z :=
  wrap32 (Z.sqrt (p * 2 ^ 64)).

Definition K : list Z :=
  Eval vm_compute in map fracCubeRoot primes.

(** Padding: the message, one [0x80] byte, zero bytes up to 56 modulo 64,
    then the bit length as a 64-bit big-endian integer. *)
Fixpoint bigEndian (nbytes : nat) (x : Z) : list Z :=
  match nbytes with
  | O => []
  | S n => bigEndian n (Z.shiftr x 8) ++ [x mod 256]
  end.

Definition pad (msg : list Z) : list Z :=
  let len := Z.of_nat (List.length msg) in
  let zeros := Z.to_nat ((55 - len) mod 64) in
  msg ++ [0x80] ++ repeat 0 zeros ++ bigEndian 8 (8 * len).

Fixpoint toWords (bytes : list Z) : list Z :=
  match bytes with
  | b0 :: b1 :: b2 :: b3 :: rest =>
      (Z.shiftl b0 24 + Z.shiftl b1 16 + Z.shiftl b2 8 + b3) :: toWords rest
  | _ => []
  end.

(** The message schedule, most recent word first. *)
Fixpoint extend (n : nat) (rev_w : list Z) : list Z :=
  match n with
  | O => rev_w
  | S n' =>
      let at_ i := nth i rev_w 0 in
      let next :=
        add32 (add32 (smallSigma1 (at_ 1%nat)) (at_ 6%nat))
              (add32 (smallSigma0 (at_ 14%nat)) (at_ 15%nat)) in
      extend n' (next :: rev_w)
  end.

Definition schedule (block : list Z) : list Z :=
  rev (extend 48 (rev block)).

Record regs := mkRegs { ra : Z; rb : Z; rc : Z; rd : Z;
                        re : Z; rf : Z; rg : Z; rh : Z }.

Definition round (r : regs) (kw : Z * Z) : regs :=
  let t1 := add32 (add32 (add32 (rh r) (bigSigma1 (re r)))
                         (add32 (Ch (re r) (rf r) (rg r)) (fst kw)))
                  (snd kw) in
  let t2 := add32 (bigSigma0 (ra r)) (Maj (ra r) (rb r) (rc r)) in
  mkRegs (add32 t1 t2) (ra r) (rb r) (rc r)
         (add32 (rd r) t1) (re r) (rf r) (rg r).

Definition compress (h : regs) (block : list Z) : regs :=
  let r := fold_left round (combine K (schedule block)) h in
  mkRegs (add32 (ra h) (ra r)) (add32 (rb h) (rb r))
         (add32 (rc h) (rc r)) (add32 (rd h) (rd r))
         (add32 (re h) (re r)) (add32 (rf h) (rf r))
         (add32 (rg h) (rg r)) (add32 (rh h) (rh r)).

Fixpoint blocks (fuel : nat) (ws : list Z) (h : regs) : regs :=
  match fuel with
  | O => h
  | S fuel' =>
      match ws with
      | [] => h
      | _ => blocks fuel' (skipn 16 ws) (compress h (firstn 16 ws))
      end
  end.

Definition initial : regs :=
  Eval vm_compute in
    match map fracSquareRoot (firstn 8 primes) with
    | [a; b; c; d; e; f; g; h] => mkRegs a b c d e f g h
    | _ => mkRegs 0 0 0 0 0 0 0 0
    end.

Definition hexDigit (d : Z) : ascii :=
  if d <? 10 then ascii_of_N (Z.to_N (48 + d))
  else ascii_of_N (Z.to_N (87 + d)).

Fixpoint hexOf (ndigits : nat) (x : Z) : string :=
  match ndigits with
  | O => EmptyString
  | S n => hexOf n (Z.shiftr x 4) ++ String (hexDigit (x mod 16)) EmptyString
  end.

Definition bytesOf (s : string) : list Z :=
  map (fun c => Z.of_N (N_of_ascii c)) (list_ascii_of_string s).

Definition digest (s : string) : string :=
  let ws := toWords (pad (bytesOf s)) in
  let r := blocks (List.length ws) ws initial in
  hexOf 8 (ra r) ++ hexOf 8 (rb r) ++ hexOf 8 (rc r) ++ hexOf 8 (rd r) ++
  hexOf 8 (re r) ++ hexOf 8 (rf r) ++ hexOf 8 (rg r) ++ hexOf 8 (rh r).

End SHA256.

(** ** JavaScript values

    What [JSON.parse] can produce, plus [undefined] (the value of a missing
    property).  An object is its list of properties in insertion order. *)

#[warnings="-register-all"]
Inductive JsVal : Type :=
| JsUndefined
| JsNull
| JsBool (b : bool)
| JsNumber (n : Z)
| JsString (s : string)
| JsArray (elems : list JsVal)
| JsObject (props : list (string * JsVal)).

Definition JsObj : Type := list (string * JsVal).

(** [typeof v] *)
Definition typeof (v : JsVal) : string :=
  match v with
  | JsUndefined => "undefined"
  | JsNull => "object"
  | JsBool _ => "boolean"
  | JsNumber _ => "number"
  | JsString _ => "string"
  | JsArray _ => "object"
  | JsObject _ => "object"
  end.

(** [o.k]: the value of property [k], [undefined] when [o] has none. *)
Fixpoint getProp (o : JsObj) (k : string) : JsVal :=
  match o with
  | [] => JsUndefined
  | (k', v) :: rest => if String.eqb k k' then v else getProp rest k
  end.

(** Truthiness, as used by [!v] and [if (v)]. *)
Definition toBoolean (v : JsVal) : bool :=
  match v with
  | JsUndefined | JsNull => false
  | JsBool b => b
  | JsNumber n => negb (n =? 0)
  | JsString s => negb (String.eqb s "")
  | JsArray _ | JsObject _ => true
  end.

(** Number to string conversion of an integer-valued number. *)
Definition numToString (n : Z) : string :=
  NilZero.string_of_int (Z.to_int n).

(** [a[i]] for an array [a]: [undefined] outside [0 .. a.length - 1]. *)
Definition arrayGet {A : Type} (a : list A) (i : Z) : option A :=
  if i <? 0 then None else nth_error a (Z.to_nat i).

(** [a.reduce(f, init)] *)
Definition reduce {A B : Type} (f : B -> A -> B) (init : B) (a : list A) : B :=
  fold_left f a init.

(** [a.map((x, index) => f(x, index))], the index counted from [i]. *)
Fixpoint mapIndexFrom {A B : Type} (f : A -> Z -> B) (i : Z) (a : list A)
  : list B :=
  match a with
  | [] => []
  | x :: rest => f x i :: mapIndexFrom f (i + 1) rest
  end.

Definition mapIndex {A B : Type} (f : A -> Z -> B) (a : list A) : list B :=
  mapIndexFrom f 0 a.

(** ** [JSON.stringify]

    Strings are quoted with the escapes of the standard; [undefined] is
    printed as [null] inside an array and its property is left out of an
    object.  ([JSON.stringify(undefined)] itself is [undefined]: callers
    handle that case before calling [JSON_stringify].) *)

Definition dquote : ascii := "034"%char.

Definition escapeChar (c : ascii) : string :=
  let n := Z.of_N (N_of_ascii c) in
  if n =? 34 then String "\" (String dquote "")
  else if n =? 92 then "\\"
  else if n =? 8 then "\b"
  else if n =? 9 then "\t"
  else if n =? 10 then "\n"
  else if n =? 12 then "\f"
  else if n =? 13 then "\r"
  else if n <? 32 then "\u00" ++ SHA256.hexOf 2 n
  else String c "".

Fixpoint escape (s : string) : string :=
  match s with
  | EmptyString => ""
  | String c rest => escapeChar c ++ escape rest
  end.

Definition quote (s : string) : string :=
  String dquote (escape s ++ String dquote "").

Fixpoint JSON_stringify (v : JsVal) : string :=
  match v with
  | JsUndefined => "null"
  | JsNull => "null"
  | JsBool b => if b then "true" else "false"
  | JsNumber n => numToString n
  | JsString s => quote s
  | JsArray elems =>
      "[" ++ String.concat "," (map JSON_stringify elems) ++ "]"
  | JsObject props =>
      "{" ++ String.concat ","
               (List.concat
                  (map (fun kv =>
                          match kv with
                          | (_, JsUndefined) => []
                          | (k, v) => [quote k ++ ":" ++ JSON_stringify v]
                          end)
                       props))
          ++ "}"
  end.

(** ** Exceptions *)

Inductive Exn : Type := TypeError | RangeError.

Inductive result (A : Type) : Type :=
| Ok (a : A)
| Throw (e : Exn).

Arguments Ok {A} a.
Arguments Throw {A} e.

Definition bind {A B : Type} (r : result A) (k : A -> result B) : result B :=
  match r with
  | Ok a => k a
  | Throw e => Throw e
  end.

Notation "x <- r ;; k" := (bind r (fun x => k))
  (at level 61, r at next level, right associativity).

(** [a.map(f)] where [f] may throw: the first exception aborts the map. *)
Fixpoint mapM {A B : Type} (f : A -> result B) (a : list A)
  : result (list B) :=
  match a with
  | [] => Ok []
  | x :: rest => y <- f x ;; ys <- mapM f rest ;; Ok (y :: ys)
  end.

(** ** Data model *)

Module UnspentTxOut.
Record t : Type := mk
  { txOutId : string; txOutIndex : Z; address : string; amount : Z }.
End UnspentTxOut.

Record TxIn : Type := mkTxIn
  { txOutId : string; txOutIndex : Z; signature : string }.

Record TxOut : Type := mkTxOut
  { address : string; amount : Z }.

Record Transaction : Type := mkTransaction
  { id : string; txIns : list TxIn; txOuts : list TxOut }.

Record Block : Type := mkBlock
  { index : Z; hash : string; previousHash : string; timestamp : Z;
    data : list Transaction; difficulty : Z; nonce : Z }.

(** The module-level variables [blockchain] and [unspentTxOuts] and the
    transaction pool; [Pool] is the type of the pool. *)
Record Ledger (Pool : Type) : Type := mkState
  { blockchain : list Block;
    unspentTxOuts : list UnspentTxOut.t;
    transactionPool : Pool }.

Arguments mkState {Pool}.
Arguments blockchain {Pool}.
Arguments unspentTxOuts {Pool}.
Arguments transactionPool {Pool}.

(** The run-time objects behind the typed records, with the properties in
    the order in which this program creates them. *)
Definition TxIn_toJs (i : TxIn) : JsVal :=
  JsObject [ ("signature", JsString (signature i));
             ("txOutId", JsString (txOutId i));
             ("txOutIndex", JsNumber (txOutIndex i)) ].

Definition TxOut_toJs (o : TxOut) : JsVal :=
  JsObject [ ("address", JsString (address o));
             ("amount", JsNumber (amount o)) ].

Definition Transaction_toJs (t : Transaction) : JsVal :=
  JsObject [ ("txIns", JsArray (map TxIn_toJs (txIns t)));
             ("txOuts", JsArray (map TxOut_toJs (txOuts t)));
             ("id", JsString (id t)) ].

Definition Block_props (b : Block) : JsObj :=
  [ ("index", JsNumber (index b));
    ("previousHash", JsString (previousHash b));
    ("timestamp", JsNumber (timestamp b));
    ("data", JsArray (map Transaction_toJs (data b)));
    ("hash", JsString (hash b));
    ("difficulty", JsNumber (difficulty b));
    ("nonce", JsNumber (nonce b)) ].

Definition Block_toJs (b : Block) : JsVal := JsObject (Block_props b).

(** ** What the engine imports

    [SHA256 s] is [CryptoJS.SHA256(s).toString()]; [ecVerify a m sg] is
    [ec.keyFromPublic(a, 'hex').verify(m, sg)] of the elliptic library,
    taken to return a boolean; [hexToBinary] comes from [./util];
    [updateTransactionPool] and the pool come from [./transactionPool], and
    the update is taken to leave the array it is given as it is;
    [isValidTransactionStructure] is the structure check that
    [validateTransaction] calls first. *)

Class Host : Type :=
  { SHA256 : string -> string;
    ecVerify : string -> string -> string -> bool;
    hexToBinary : string -> string;
    isValidTransactionStructure : Transaction -> bool;
    TransactionPool : Type;
    updateTransactionPool :
      list UnspentTxOut.t -> TransactionPool -> TransactionPool }.

Section Engine.

Context {host : Host}.

(** *** The transaction module *)

Definition COINBASE_AMOUNT : Z := 50.

Definition getTransactionId (transaction : Transaction) : string :=
  let txInContent :=
    reduce (fun a b => a ++ b) ""
      (map (fun txIn => txOutId txIn ++ numToString (txOutIndex txIn))
           (txIns transaction)) in
  let txOutContent :=
    reduce (fun a b => a ++ b) ""
      (map (fun txOut => address txOut ++ numToString (amount txOut))
           (txOuts transaction)) in
  SHA256 (txInContent ++ txOutContent).

Definition findUnspentTxOut (transactionId : string) (index : Z)
    (aUnspentTxOuts : list UnspentTxOut.t) : option UnspentTxOut.t :=
  find (fun uTxO =>
          String.eqb (UnspentTxOut.txOutId uTxO) transactionId
          && (UnspentTxOut.txOutIndex uTxO =? index))
       aUnspentTxOuts.

Definition validateTxIn (txIn : TxIn) (transaction : Transaction)
    (aUnspentTxOuts : list UnspentTxOut.t) : bool :=
  match find (fun uTxO =>
                String.eqb (UnspentTxOut.txOutId uTxO) (txOutId txIn)
                && (UnspentTxOut.txOutIndex uTxO =? txOutIndex txIn))
             aUnspentTxOuts with
  | None => false
  | Some referencedUTxOut =>
      let address := UnspentTxOut.address referencedUTxOut in
      let validSignature :=
        ecVerify address (id transaction) (signature txIn) in
      if negb validSignature then false else true
  end.

(** [findUnspentTxOut(...).amount] throws when nothing is found. *)
Definition getTxInAmount (txIn : TxIn)
    (aUnspentTxOuts : list UnspentTxOut.t) : result Z :=
  match findUnspentTxOut (txOutId txIn) (txOutIndex txIn) aUnspentTxOuts with
  | Some uTxO => Ok (UnspentTxOut.amount uTxO)
  | None => Throw TypeError
  end.

Definition validateTransaction (transaction : Transaction)
    (aUnspentTxOuts : list UnspentTxOut.t) : result bool :=
  if negb (isValidTransactionStructure transaction) then Ok false
  else if negb (String.eqb (getTransactionId transaction) (id transaction))
  then Ok false
  else
    let hasValidTxIns :=
      reduce (fun a b => a && b) true
        (map (fun txIn => validateTxIn txIn transaction aUnspentTxOuts)
             (txIns transaction)) in
    if negb hasValidTxIns then Ok false
    else
      txInValues <-
        mapM (fun txIn => getTxInAmount txIn aUnspentTxOuts)
             (txIns transaction) ;;
      let totalTxInValues := reduce (fun a b => a + b) 0 txInValues in
      let totalTxOutValues :=
        reduce (fun a b => a + b) 0 (map amount (txOuts transaction)) in
      if negb (totalTxOutValues =? totalTxInValues) then Ok false
      else Ok true.

(** [_.countBy(a, key)]: the number of elements per key. *)
Fixpoint countInsert (key : string) (groups : list (string * nat))
  : list (string * nat) :=
  match groups with
  | [] => [(key, 1%nat)]
  | (k, n) :: rest =>
      if String.eqb key k then (k, S n) :: rest
      else (k, n) :: countInsert key rest
  end.

Definition countBy {A : Type} (key : A -> string) (a : list A)
  : list (string * nat) :=
  fold_left (fun groups x => countInsert (key x) groups) a [].

Definition hasDuplicates (txIns : list TxIn) : bool :=
  let groups :=
    countBy (fun txIn => txOutId txIn ++ numToString (txOutIndex txIn))
            txIns in
  existsb (fun r => Bool.eqb r true)
    (map (fun kv => if (1 <? snd kv)%nat then true else false) groups).

(** The result is a [JsVal]: one path ends in a bare [return;]. *)
Definition validateCoinbaseTx (transaction : option Transaction)
    (blockIndex : Z) : JsVal :=
  match transaction with
  | None => JsBool false
  | Some transaction =>
      if negb (String.eqb (getTransactionId transaction) (id transaction))
      then JsBool false
      else
        match txIns transaction with
        | [txIn0] =>
            if negb (txOutIndex txIn0 =? blockIndex) then JsBool false
            else
              match txOuts transaction with
              | [txOut0] =>
                  if negb (amount txOut0 =? COINBASE_AMOUNT)
                  then JsBool false
                  else JsBool true
              | _ => JsBool false
              end
        | _ => JsUndefined
        end
  end.

Definition validateBlockTransactions (aTransactions : list Transaction)
    (aUnspentTxOuts : list UnspentTxOut.t) (blockIndex : Z) : result bool :=
  let coinbaseTx := hd_error aTransactions in
  if negb (toBoolean (validateCoinbaseTx coinbaseTx blockIndex))
  then Ok false
  else
    let txIns := List.concat (map txIns aTransactions) in
    if hasDuplicates txIns then Ok false
    else
      let normalTransactions := tl aTransactions in
      valid <-
        mapM (fun tx => validateTransaction tx aUnspentTxOuts)
             normalTransactions ;;
      Ok (reduce (fun a b => a && b) true valid).

Definition updateUnspentTxOuts (aTransactions : list Transaction)
    (aUnspentTxOuts : list UnspentTxOut.t) : list UnspentTxOut.t :=
  let newUnspentTxOuts :=
    reduce (fun a b => (a ++ b)%list) []
      (map (fun t =>
              mapIndex (fun txOut index =>
                          UnspentTxOut.mk (id t) index
                            (address txOut) (amount txOut))
                       (txOuts t))
           aTransactions) in
  let consumedTxOuts :=
    map (fun txIn => UnspentTxOut.mk (txOutId txIn) (txOutIndex txIn) "" 0)
        (reduce (fun a b => (a ++ b)%list) [] (map txIns aTransactions)) in
  (filter (fun uTxO =>
            match findUnspentTxOut (UnspentTxOut.txOutId uTxO)
                    (UnspentTxOut.txOutIndex uTxO) consumedTxOuts with
            | Some _ => false
            | None => true
            end)
         aUnspentTxOuts
  ++ newUnspentTxOuts)%list.

(** [null] is [None]. *)
Definition processTransactions (aTransactions : list Transaction)
    (aUnspentTxOuts : list UnspentTxOut.t) (blockIndex : Z)
  : result (option (list UnspentTxOut.t)) :=
  valid <- validateBlockTransactions aTransactions aUnspentTxOuts blockIndex ;;
  if negb valid then Ok None
  else Ok (Some (updateUnspentTxOuts aTransactions aUnspentTxOuts)).

Definition getCoinbaseTransaction (address : string) (blockIndex : Z)
  : Transaction :=
  let txIn := mkTxIn "" blockIndex "" in
  let t := mkTransaction "" [txIn] [mkTxOut address COINBASE_AMOUNT] in
  mkTransaction (getTransactionId t) (txIns t) (txOuts t).

(** *** The chain module *)

Definition genesisTransaction : Transaction :=
  {| txIns := [ {| signature := ""; txOutId := ""; txOutIndex := 0 |} ];
     txOuts :=
       [ {| address :=
              "04bfcab8722991ae774db48f934ca79cfb7dd991229153b9f732ba5334aafcd8e7266e47076996b55a14bf9913ee3145ce0cfc1372ada8ada74bd287450313534a";
            amount := 50 |} ];
     id := "e655f6a5f26dc9b4cac6e46f52336428287759cf81ef5ff10854f69d68f43fa3"
  |}.

Definition genesisBlock : Block :=
  mkBlock 0 "91a73664bc84c0baa1fc75ea6e4aa6d1d20c5df664c724e3159aefc2e1186627"
          "" 1465154705 [genesisTransaction] 0 0.

(** The module-level variables. *)
Definition State : Type := Ledger TransactionPool.

(** Module initialisation: [blockchain = [genesisBlock]] and
    [unspentTxOuts = processTransactions(blockchain[0].data, [], 0)].
    [None] stands for a start in which that call throws or returns [null];
    the engine is not modelled from such a start. *)
Definition initialState (pool : TransactionPool) : option State :=
  match processTransactions (data genesisBlock) [] 0 with
  | Ok (Some aUnspentTxOuts) =>
      Some (mkState [genesisBlock] aUnspentTxOuts pool)
  | _ => None
  end.

Definition getBlockchain (s : State) : list Block := blockchain s.

(** [_.cloneDeep] returns an equal value. *)
Definition getUnspentTxOuts (s : State) : list UnspentTxOut.t :=
  unspentTxOuts s.

Definition getLatestBlock (s : State) : option Block :=
  arrayGet (blockchain s) (Z.of_nat (List.length (blockchain s)) - 1).

Definition BLOCK_GENERATION_INTERVAL : Z := 10.
Definition DIFFICULTY_ADJUSTMENT_INTERVAL : Z := 10.

(** Reading a property of [undefined] throws. *)
Definition deref {A : Type} (o : option A) : result A :=
  match o with
  | Some a => Ok a
  | None => Throw TypeError
  end.

(** Both functions index their argument with the length of the module
    variable [blockchain].  [timeExpected / 2] is exact: [timeExpected]
    is 100. *)
Definition getAdjustedDifficulty (s : State) (latestBlock : Block)
    (aBlockchain : list Block) : result Z :=
  prevAdjustmentBlock <-
    deref (arrayGet aBlockchain
             (Z.of_nat (List.length (blockchain s))
              - DIFFICULTY_ADJUSTMENT_INTERVAL)) ;;
  let timeExpected :=
    BLOCK_GENERATION_INTERVAL * DIFFICULTY_ADJUSTMENT_INTERVAL in
  let timeTaken := timestamp latestBlock - timestamp prevAdjustmentBlock in
  if timeTaken <? timeExpected / 2
  then Ok (difficulty prevAdjustmentBlock + 1)
  else if timeTaken >? timeExpected * 2
  then Ok (difficulty prevAdjustmentBlock - 1)
  else Ok (difficulty prevAdjustmentBlock).

(** [%] is the remainder of truncated division, [Z.rem]. *)
Definition getDifficulty (s : State) (aBlockchain : list Block)
  : result Z :=
  latestBlock <-
    deref (arrayGet aBlockchain
             (Z.of_nat (List.length (blockchain s)) - 1)) ;;
  if (Z.rem (index latestBlock) DIFFICULTY_ADJUSTMENT_INTERVAL =? 0)
     && negb (index latestBlock =? 0)
  then getAdjustedDifficulty s latestBlock aBlockchain
  else Ok (difficulty latestBlock).

(** [data] is an array of objects: its string form is one
    [[object Object]] per element, separated by commas. *)
Definition arrayToString (data : list Transaction) : string :=
  String.concat "," (map (fun _ => "[object Object]") data).

Definition calculateHash (index : Z) (previousHash : string)
    (timestamp : Z) (data : list Transaction) (difficulty nonce : Z)
  : string :=
  SHA256 (numToString index ++ previousHash ++ numToString timestamp
          ++ arrayToString data ++ numToString difficulty
          ++ numToString nonce).

Definition calculateHashForBlock (block : Block) : string :=
  calculateHash (index block) (previousHash block) (timestamp block)
                (data block) (difficulty block) (nonce block).

Definition isValidBlockStructure (block : JsObj) : bool :=
  String.eqb (typeof (getProp block "index")) "number"
  && String.eqb (typeof (getProp block "hash")) "string"
  && String.eqb (typeof (getProp block "previousHash")) "string"
  && String.eqb (typeof (getProp block "timestamp")) "number"
  && String.eqb (typeof (getProp block "data")) "object".

(** [now] is the value of [getCurrentTimestamp()]. *)
Definition isValidTimestamp (now : Z) (newBlock previousBlock : Block)
  : bool :=
  (timestamp previousBlock - 60 <? timestamp newBlock)
  && (timestamp newBlock - 60 <? now).

Definition hashMatchesBlockContent (block : Block) : bool :=
  let blockHash := calculateHashForBlock block in
  String.eqb blockHash (hash block).

(** ['0'.repeat(n)] throws a [RangeError] for a negative [n]. *)
Definition repeatZero (n : Z) : result string :=
  if n <? 0 then Throw RangeError
  else Ok (string_of_list_ascii (repeat "0"%char (Z.to_nat n))).

Definition hashMatchesDifficulty (hash : string) (difficulty : Z)
  : result bool :=
  let hashInBinary := hexToBinary hash in
  requiredPrefix <- repeatZero difficulty ;;
  Ok (String.prefix requiredPrefix hashInBinary).

(** The outcome of the difficulty test is only logged. *)
Definition hasValidHash (block : Block) : result bool :=
  if negb (hashMatchesBlockContent block) then Ok false
  else
    _matches <- hashMatchesDifficulty (hash block) (difficulty block) ;;
    Ok true.

Definition isValidNewBlock (now : Z) (newBlock previousBlock : Block)
  : result bool :=
  if negb (isValidBlockStructure (Block_props newBlock)) then Ok false
  else if negb (index previousBlock + 1 =? index newBlock) then Ok false
  else if negb (String.eqb (hash previousBlock) (previousHash newBlock))
  then Ok false
  else if negb (isValidTimestamp now newBlock previousBlock) then Ok false
  else
    valid <- hasValidHash newBlock ;;
    if negb valid then Ok false else Ok true.

(** [reduce] without an initial value throws on an empty array. *)
Definition getAccumulatedDifficulty (aBlockchain : list Block) : result Q :=
  match map (fun difficulty => Qpower (2 # 1) difficulty)
            (map (fun block => difficulty block) aBlockchain) with
  | [] => Throw TypeError
  | first :: rest => Ok (reduce (fun a b => Qplus a b) first rest)
  end.

Definition isValidGenesis (block : option Block) : bool :=
  match block with
  | None => false
  | Some block =>
      String.eqb (JSON_stringify (Block_toJs block))
                 (JSON_stringify (Block_toJs genesisBlock))
  end.

(** The loop of [isValidChain] from position [i] on: [previous] is
    [blockchainToValidate[i - 1]] ([None] exactly when [i] is 0), [rest]
    the blocks from position [i], and [clock i] the clock reading taken
    while block [i] is checked. *)
Fixpoint isValidChainFrom (clock : nat -> Z) (i : nat)
    (previous : option Block) (rest : list Block)
    (aUnspentTxOuts : list UnspentTxOut.t)
  : result (option (list UnspentTxOut.t)) :=
  match rest with
  | [] => Ok (Some aUnspentTxOuts)
  | currentBlock :: rest' =>
      valid <-
        match previous with
        | None => Ok true
        | Some previousBlock =>
            isValidNewBlock (clock i) currentBlock previousBlock
        end ;;
      if negb valid then Ok None
      else
        processed <-
          processTransactions (data currentBlock) aUnspentTxOuts
                              (index currentBlock) ;;
        match processed with
        | None => Ok None
        | Some aUnspentTxOuts' =>
            isValidChainFrom clock (S i) (Some currentBlock) rest'
                             aUnspentTxOuts'
        end
  end.

Definition isValidChain (clock : nat -> Z)
    (blockchainToValidate : list Block)
  : result (option (list UnspentTxOut.t)) :=
  if negb (isValidGenesis (arrayGet blockchainToValidate 0)) then Ok None
  else isValidChainFrom clock 0 None blockchainToValidate [].

Definition addBlockToChain (now : Z) (s : State) (newBlock : Block)
  : result (bool * State) :=
  latestBlock <- deref (getLatestBlock s) ;;
  valid <- isValidNewBlock now newBlock latestBlock ;;
  if valid then
    retVal <-
      processTransactions (data newBlock) (getUnspentTxOuts s)
                          (index newBlock) ;;
    match retVal with
    | None => Ok (false, s)
    | Some retVal =>
        Ok (true,
            mkState (blockchain s ++ [newBlock])%list retVal
                    (updateTransactionPool retVal (transactionPool s)))
    end
  else Ok (false, s).

Definition replaceChain (clock : nat -> Z) (s : State)
    (newBlocks : list Block) : result State :=
  aUnspentTxOuts <- isValidChain clock newBlocks ;;
  match aUnspentTxOuts with
  | Some aUnspentTxOuts =>
      new <- getAccumulatedDifficulty newBlocks ;;
      current <- getAccumulatedDifficulty (getBlockchain s) ;;
      if negb (Qle_bool new current) then
        Ok (mkState newBlocks aUnspentTxOuts
                    (updateTransactionPool aUnspentTxOuts
                                           (transactionPool s)))
      else Ok s
  | None => Ok s
  end.

(** The ledger after a call: a thrown exception leaves it as it was. *)
Definition stateAfter {A : Type} (s : State) (r : result A)
    (get : A -> State) : State :=
  match r with
  | Ok a => get a
  | Throw _ => s
  end.

End Engine.

(** ** The structure checks of the transaction module on run-time values *)

(** [v.k] for any value [v] that is neither [null] nor [undefined]. *)
Definition getField (v : JsVal) (k : string) : JsVal :=
  match v with
  | JsObject props => getProp props k
  | _ => JsUndefined
  end.

Definition isNullish (v : JsVal) : bool :=
  match v with
  | JsUndefined | JsNull => true
  | _ => false
  end.

Definition isHexChar (c : ascii) : bool :=
  let n := Z.of_N (N_of_ascii c) in
  ((48 <=? n) && (n <=? 57)) || ((65 <=? n) && (n <=? 70))
  || ((97 <=? n) && (n <=? 102)).

(** [address.match('^[a-fA-F0-9]+$') === null] is the negation of
    "non-empty and made of hexadecimal digits only". *)
Definition isValidAddress (address : string) : bool :=
  if negb (Nat.eqb (String.length address) 130) then false
  else if negb (negb (String.eqb address "")
                && forallb isHexChar (list_ascii_of_string address))
  then false
  else if negb (String.prefix "04" address) then false
  else true.

Definition isValidTxInStructure (txIn : JsVal) : bool :=
  if isNullish txIn then false
  else if negb (String.eqb (typeof (getField txIn "signature")) "string")
  then false
  else if negb (String.eqb (typeof (getField txIn "txOutId")) "string")
  then false
  else if negb (String.eqb (typeof (getField txIn "txOutIndex")) "number")
  then false
  else true.

Definition isValidTxOutStructure (txOut : JsVal) : bool :=
  if isNullish txOut then false
  else
    match getField txOut "address" with
    | JsString address =>
        if negb (isValidAddress address) then false
        else if negb (String.eqb (typeof (getField txOut "amount")) "number")
        then false
        else true
    | _ => false
    end.

(** ** A host to run the engine on

    [SHA256] is the real digest.  The other members are stand-ins of the
    declared types, good enough to evaluate the engine on examples; every
    general theorem below is stated for an arbitrary [Host]. *)

Definition hexDigitBits (c : ascii) : string :=
  let n := Z.of_N (N_of_ascii c) in
  let d := if (48 <=? n) && (n <=? 57) then n - 48
           else if (97 <=? n) && (n <=? 102) then n - 87
           else (-1) in
  if d <? 0 then ""
  else String (if Z.testbit d 3 then "1" else "0")
      (String (if Z.testbit d 2 then "1" else "0")
      (String (if Z.testbit d 1 then "1" else "0")
      (String (if Z.testbit d 0 then "1" else "0") "")))%char.

(** Modelled from the spec: [hexToBinary] of [./util], which is not among
    the sources.  The digest is "interpreted as a binary string": four bits
    per hexadecimal digit, most significant first. *)
Fixpoint exampleHexToBinary (s : string) : string :=
  match s with
  | EmptyString => ""
  | String c rest => hexDigitBits c ++ exampleHexToBinary rest
  end.

(** Modelled from the spec: [isValidTransactionStructure], which is not
    among the sources.  "Structural shape is invalid (wrong field types,
    missing arrays)": on a typed transaction the arrays are there, and
    every input and output has to pass its own structure check. *)
Definition exampleIsValidTransactionStructure (t : Transaction) : bool :=
  forallb isValidTxInStructure (map TxIn_toJs (txIns t))
  && forallb isValidTxOutStructure (map TxOut_toJs (txOuts t)).

(** Modelled from the spec: [updateTransactionPool] of [./transactionPool],
    which is not among the sources.  It "drops every pool entry whose
    referenced UTXO no longer exists in the (new) utxoSet". *)
Definition exampleUpdateTransactionPool (aUnspentTxOuts : list UnspentTxOut.t)
    (pool : list Transaction) : list Transaction :=
  filter (fun tx =>
            forallb (fun txIn =>
                       existsb (fun uTxO =>
                                  String.eqb (UnspentTxOut.txOutId uTxO)
                                             (txOutId txIn)
                                  && (UnspentTxOut.txOutIndex uTxO
                                      =? txOutIndex txIn))
                               aUnspentTxOuts)
                    (txIns tx))
         pool.

(** A stand-in for the signature check (not ECDSA): the signature of
    message [m] under key [a] is the digest of [a ++ m]. *)
Definition exampleVerify (a m sg : string) : bool :=
  String.eqb sg (SHA256.digest (a ++ m)).

Definition exampleHost : Host :=
  {| SHA256 := SHA256.digest;
     ecVerify := exampleVerify;
     hexToBinary := exampleHexToBinary;
     isValidTransactionStructure := exampleIsValidTransactionStructure;
     TransactionPool := list Transaction;
     updateTransactionPool := exampleUpdateTransactionPool |}.

(** ** Example data *)

Module Examples.

#[local] Existing Instance exampleHost.

Definition minerAddress : string :=
  "04bfcab8722991ae774db48f934ca79cfb7dd991229153b9f732ba5334aafcd8e7266e47076996b55a14bf9913ee3145ce0cfc1372ada8ada74bd287450313534a".

Definition genesisUnspentTxOuts : list UnspentTxOut.t :=
  [ UnspentTxOut.mk
      "e655f6a5f26dc9b4cac6e46f52336428287759cf81ef5ff10854f69d68f43fa3"
      0 minerAddress 50 ].

Definition startState : State :=
  mkState [genesisBlock] genesisUnspentTxOuts [].

(** A block on top of the genesis block that declares difficulty 1 while
    the first bit of its hash is 1. *)
Definition easyBlock : Block :=
  mkBlock 1 "b68c2fe0036084efa013d5020d032fb80b38129f15a0be1aee1f8f46e21f7a3a"
          (hash genesisBlock) 1465154706
          [getCoinbaseTransaction minerAddress 1] 1 1.

(** The same position mined honestly at difficulty 0. *)
Definition honestBlock : Block :=
  mkBlock 1 "3b56d10d0399566dc89b10af5e30d90f2d8800564888beae0f01e09d31074267"
          (hash genesisBlock) 1465154706
          [getCoinbaseTransaction minerAddress 1] 0 0.


Definition constClock (now : Z) : nat -> Z := fun _ => now.

(** The clock reading used in the examples. *)
Definition later : Z := 1465154800.

(** The ledger after [honestBlock] was added to [startState], and after
    the chain was then replaced by the heavier [genesisBlock; easyBlock]. *)
Definition afterHonest : State :=
  stateAfter startState (addBlockToChain later startState honestBlock) snd.

Definition afterReplace : State :=
  stateAfter afterHonest
    (replaceChain (constClock later) afterHonest [genesisBlock; easyBlock])
    (fun s => s).

(** A block object without [difficulty] and with a string for [nonce]. *)
Definition looseBlock : JsObj :=
  [ ("index", JsNumber 7); ("hash", JsString "00ff");
    ("previousHash", JsString "00aa"); ("timestamp", JsNumber 1465154999);
    ("data", JsNull); ("nonce", JsString "seven") ].

(** Coinbase-shaped transactions for block 1: one whose [id] is not the
    digest of its content, and one with two inputs. *)
Definition wrongIdCoinbase : Transaction :=
  mkTransaction "00" [mkTxIn "" 1 ""] [mkTxOut minerAddress 50].

Definition twoInputCoinbase : Transaction :=
  let t := mkTransaction "" [mkTxIn "" 1 ""; mkTxIn "" 1 ""]
                         [mkTxOut minerAddress 50] in
  mkTransaction (getTransactionId t) (txIns t) (txOuts t).

(** Two inputs that name different outputs and share the key [a12]. *)
Definition inputA : TxIn := mkTxIn "a1" 2 "".
Definition inputB : TxIn := mkTxIn "a" 12 "".

(** A block for index 1: a coinbase and one transaction that spends the
    two distinct outputs [("a1", 2)] and [("a", 12)], both present in
    [twoOutputs] and both signed. *)
Definition twoOutputs : list UnspentTxOut.t :=
  [ UnspentTxOut.mk "a1" 2 minerAddress 30;
    UnspentTxOut.mk "a" 12 minerAddress 20 ].

Definition spendBoth : Transaction :=
  let unsigned := mkTransaction "" [inputA; inputB]
                                [mkTxOut minerAddress 50] in
  let txId := getTransactionId unsigned in
  let sg := SHA256.digest (minerAddress ++ txId) in
  mkTransaction txId [mkTxIn "a1" 2 sg; mkTxIn "a" 12 sg]
                (txOuts unsigned).

Definition spendBothBlockData : list Transaction :=
  [getCoinbaseTransaction minerAddress 1; spendBoth].

Definition txInRef (txIn : TxIn) : string * Z :=
  (txOutId txIn, txOutIndex txIn).

(** [honestBlock] with its coinbase swapped for one with a wrong id: the
    block hash does not cover the content of the transactions. *)
Definition tamperedBlock : Block :=
  mkBlock 1 (hash honestBlock) (hash genesisBlock) 1465154706
          [wrongIdCoinbase] 0 0.

End Examples.


(** ** Vocabulary of the statements *)






(** Reading back one character written by [escapeChar]; used to show that
    [JSON_stringify] loses no information. *)
Definition unescapeChar (s : string) : option (ascii * string) :=
  match s with
  | EmptyString => None
  | String c rest =>
      if Ascii.eqb c "\" then
        match rest with
        | EmptyString => None
        | String e rest' =>
            if Ascii.eqb e "u" then
              match rest' with
              | String _ (String _ (String h1 (String h0 rest''))) =>
                  let value (h : ascii) :=
                    let n := Z.of_N (N_of_ascii h) in
                    if n <? 58 then n - 48 else n - 87 in
                  Some (ascii_of_N (Z.to_N (16 * value h1 + value h0)),
                        rest'')
              | _ => None
              end
            else if Ascii.eqb e "b" then Some ("008"%char, rest')
            else if Ascii.eqb e "t" then Some ("009"%char, rest')
            else if Ascii.eqb e "n" then Some ("010"%char, rest')
            else if Ascii.eqb e "f" then Some ("012"%char, rest')
            else if Ascii.eqb e "r" then Some ("013"%char, rest')
            else Some (e, rest')
        end
      else Some (c, rest)
  end.

(** Decimal digits, for the printed form of numbers. *)
Definition isDigit (c : ascii) : bool :=
  let n := Z.of_N (N_of_ascii c) in (48 <=? n) && (n <=? 57).

Fixpoint allDigits (s : string) : Prop :=
  match s with
  | EmptyString => True
  | String c rest => isDigit c = true /\ allDigits rest
  end.

Definition startsNonDigit (s : string) : Prop :=
  match s with
  | EmptyString => True
  | String c _ => isDigit c = false
  end.

Section ChainVocabulary.

Context {host : Host}.

(** Folding [processTransactions] over the blocks of a chain, in order,
    from the empty set. *)
Definition applyBlock (acc : result (option (list UnspentTxOut.t)))
    (block : Block) : result (option (list UnspentTxOut.t)) :=
  o <- acc ;;
  match o with
  | None => Ok None
  | Some aUnspentTxOuts =>
      processTransactions (data block) aUnspentTxOuts (index block)
  end.

Definition deriveUnspentTxOuts (chain : list Block)
  : result (option (list UnspentTxOut.t)) :=
  fold_left applyBlock chain (Ok (Some [])).

(** The ledger states that calls of [addBlockToChain] and [replaceChain]
    lead to from [s0]; a call that throws leaves the state as it was. *)
Inductive reachable (s0 : State) : State -> Prop :=
| reachable_start : reachable s0 s0
| reachable_addBlockToChain (s s' : State) (now : Z) (newBlock : Block)
    (added : bool) :
    reachable s0 s ->
    addBlockToChain now s newBlock = Ok (added, s') ->
    reachable s0 s'
| reachable_replaceChain (s s' : State) (clock : nat -> Z)
    (newBlocks : list Block) :
    reachable s0 s ->
    replaceChain clock s newBlocks = Ok s' ->
    reachable s0 s'.


(** The retargeting rule at an interval boundary. *)
Definition retarget (latestBlock prevAdjustmentBlock : Block) : Z :=
  let timeExpected :=
    BLOCK_GENERATION_INTERVAL * DIFFICULTY_ADJUSTMENT_INTERVAL in
  let timeTaken := timestamp latestBlock - timestamp prevAdjustmentBlock in
  if timeTaken <? timeExpected / 2 then difficulty prevAdjustmentBlock + 1
  else if timeTaken >? timeExpected * 2
  then difficulty prevAdjustmentBlock - 1
  else difficulty prevAdjustmentBlock.

(** Every block of [rest] passes [isValidNewBlock] against the block
    before it; [previous] is the block before the first one, if any, and
    [clock i] the clock reading for the block at position [i]. *)
Fixpoint linkedFrom (clock : nat -> Z) (i : nat) (previous : option Block)
    (rest : list Block) : Prop :=
  match rest with
  | [] => True
  | currentBlock :: rest' =>
      match previous with
      | None => True
      | Some previousBlock =>
          isValidNewBlock (clock i) currentBlock previousBlock = Ok true
      end
      /\ linkedFrom clock (S i) (Some currentBlock) rest'
  end.

Definition atBoundary (latestBlock : Block) : Prop :=
  Z.rem (index latestBlock) DIFFICULTY_ADJUSTMENT_INTERVAL = 0
  /\ index latestBlock <> 0.

End ChainVocabulary.

(** ** More of the chain module: mining and block generation *)

Section Mining.

Context {host : Host}.

(** The search loop of [findBlock], started at [nonce] and cut off after
    [fuel] rounds: [None] means that the loop is still running. *)
Fixpoint findBlockFrom (fuel : nat) (index : Z) (previousHash : string)
    (timestamp : Z) (data : list Transaction) (difficulty nonce : Z)
  : option (result Block) :=
  match fuel with
  | O => None
  | S fuel' =>
      let hash :=
        calculateHash index previousHash timestamp data difficulty nonce in
      match hashMatchesDifficulty hash difficulty with
      | Throw e => Some (Throw e)
      | Ok true =>
          Some (Ok (mkBlock index hash previousHash timestamp data
                            difficulty nonce))
      | Ok false =>
          findBlockFrom fuel' index previousHash timestamp data difficulty
                        (nonce + 1)
      end
  end.

Definition findBlock (fuel : nat) (index : Z) (previousHash : string)
    (timestamp : Z) (data : list Transaction) (difficulty : Z)
  : option (result Block) :=
  findBlockFrom fuel index previousHash timestamp data difficulty 0.

(** *** Messages of the peer-to-peer module *)

Inductive MessageType : Type :=
| QUERY_LATEST
| QUERY_ALL
| RESPONSE_BLOCKCHAIN
| QUERY_TRANSACTION_POOL
| RESPONSE_TRANSACTION_POOL.

(** [data] is [null] or a JSON text. *)
Record Message : Type := mkMessage
  { type : MessageType; msgData : option string }.


(** [JSON.stringify([getLatestBlock()])]: an array element that is
    [undefined] is printed as [null]. *)
Definition responseLatestMsg (s : State) : Message :=
  mkMessage RESPONSE_BLOCKCHAIN
    (Some (JSON_stringify
             (JsArray [ match getLatestBlock s with
                        | Some block => Block_toJs block
                        | None => JsUndefined
                        end ]))).


(** [generateRawNextBlock]: [now] is the clock reading that becomes the
    timestamp of the block, [now'] the reading taken by
    [addBlockToChain] once the block is mined.  The result is the block
    (or [null]), the ledger and the broadcasts. *)
Definition generateRawNextBlock (fuel : nat) (now now' : Z) (s : State)
    (blockData : list Transaction)
  : option (result (option Block * State * list Message)) :=
  let previousBlock := getLatestBlock s in
  match getDifficulty s (getBlockchain s) with
  | Throw e => Some (Throw e)
  | Ok difficulty =>
      match previousBlock with
      | None => Some (Throw TypeError)
      | Some previousBlock =>
          let nextIndex := index previousBlock + 1 in
          let nextTimestamp := now in
          match findBlock fuel nextIndex (hash previousBlock) nextTimestamp
                          blockData difficulty with
          | None => None
          | Some (Throw e) => Some (Throw e)
          | Some (Ok newBlock) =>
              Some (added <- addBlockToChain now' s newBlock ;;
                    if fst added
                    then Ok (Some newBlock, snd added,
                             [responseLatestMsg (snd added)])
                    else Ok (None, snd added, []))
          end
      end
  end.


End Mining.

(** ** The socket list of the peer-to-peer module *)

(** A socket is known by its identity. *)
Definition WebSocket : Type := nat.

(** [a.indexOf(x)]: the first position of [x], or -1. *)
Fixpoint indexOfFrom (i : Z) (a : list WebSocket) (x : WebSocket) : Z :=
  match a with
  | [] => -1
  | y :: rest => if Nat.eqb y x then i else indexOfFrom (i + 1) rest x
  end.

Definition indexOf (a : list WebSocket) (x : WebSocket) : Z :=
  indexOfFrom 0 a x.

(** [a.splice(start, 1)]: a negative [start] counts from the end. *)
Definition splice1 {A : Type} (a : list A) (start : Z) : list A :=
  let len := Z.of_nat (List.length a) in
  let actualStart :=
    if start <? 0 then Z.max (len + start) 0 else Z.min start len in
  (firstn (Z.to_nat actualStart) a
   ++ skipn (Z.to_nat actualStart + 1) a)%list.

(** [closeConnection] is the handler of both the [close] and the [error]
    event of a socket. *)
Definition closeConnection (sockets : list WebSocket) (myWs : WebSocket)
  : list WebSocket :=
  splice1 sockets (indexOf sockets myWs).

(** ** [toHexString] of the transaction module *)

(** [n.toString(16)] for an integer [n]. *)
Fixpoint toString16From (fuel : nat) (n : Z) : string :=
  match fuel with
  | O => ""
  | S fuel' =>
      if n <? 16 then String (SHA256.hexDigit n) ""
      else toString16From fuel' (n / 16)
           ++ String (SHA256.hexDigit (n mod 16)) ""
  end.

Definition toString16 (n : Z) : string :=
  if n <? 0 then "-" ++ toString16From (Z.to_nat (- n)) (- n)
  else toString16From (S (Z.to_nat n)) n.

(** [s.slice(-2)]: the last two characters. *)
Definition sliceLast2 (s : string) : string :=
  substring (String.length s - 2) 2 s.

Definition toHexString (byteArray : list Z) : string :=
  String.concat ""
    (map (fun byte => sliceLast2 ("0" ++ toString16 (Z.land byte 255)))
         byteArray).

(** ** Vocabulary of the further statements *)

(** The key under which [hasDuplicates] groups an input. *)
Definition duplicateKey (txIn : TxIn) : string :=
  txOutId txIn ++ numToString (txOutIndex txIn).

(** The output that an input names. *)
Definition referenceOf (txIn : TxIn) : string * Z :=
  (txOutId txIn, txOutIndex txIn).





(** Every reading of [clock] is at least [now0]. *)
Definition lateEnough (now0 : Z) (clock : nat -> Z) : Prop :=
  forall i : nat, now0 <= clock i.

(** The blocks have the same header and equally many transactions. *)
Definition sameHeader (b b' : Block) : Prop :=
  index b = index b' /\ hash b = hash b'
  /\ previousHash b = previousHash b' /\ timestamp b = timestamp b'
  /\ difficulty b = difficulty b' /\ nonce b = nonce b'
  /\ List.length (data b) = List.length (data b').

(** The two hexadecimal digits that [toHexString] writes for a byte, and
    the byte values. *)
Definition byteHex (n : Z) : string := sliceLast2 ("0" ++ toString16 n).

Definition allBytes : list Z := map Z.of_nat (seq 0 256).

(** ** Further example data *)

Module MoreExamples.

Import Examples.
#[local] Existing Instance exampleHost.





(** Mining one block with a coinbase transaction only, the clock showing
    [now]. *)
Definition mineAt (s : State) (now : Z) : State :=
  match generateRawNextBlock 1 now now s
          [getCoinbaseTransaction minerAddress
             (Z.of_nat (List.length (blockchain s)))] with
  | Some (Ok (_, s', _)) => s'
  | _ => s
  end.

(** Ten blocks mined 30 seconds apart on top of the genesis block. *)
Definition slowTimes : list Z :=
  map (fun k => timestamp genesisBlock + 30 * Z.of_nat k) (seq 1 10).

Definition slowLedger : State := fold_left mineAt slowTimes startState.

Definition slowLatest : Block := last (blockchain slowLedger) genesisBlock.

Definition slowPrevious : Block := nth 1 (blockchain slowLedger) genesisBlock.

Definition laterClock : nat -> Z := constClock (later + 100).

End MoreExamples.

(** * Properties *)

(** ** The digest on the test vectors of the standard *)

Lemma SHA256_digest_vectors :
  SHA256.digest ""
  = "e3b0c44298fc1c149afbf4c8996fb92427ae41e4649b934ca495991b7852b855"
  /\ SHA256.digest "abc"
     = "ba7816bf8f01cfea414140de5dae2223b00361a396177a9cb410ff61f20015ad"
  /\ SHA256.digest
       "abcdbcdecdefdefgefghfghighijhijkijkljklmklmnlmnomnopnopq"
     = "248d6a61d20638b8e5c026930c3e6039a33ce45964ff2167f6ecedd419db06c1".
Proof. split; [|split]; vm_compute; reflexivity. Qed.

(** ** List and monad facts *)







(** ** The transaction engine *)

Section TransactionProperties.

Context {host : Host}.








(** *** [updateUnspentTxOuts] and [processTransactions] *)









(** *** [validateCoinbaseTx] *)

Lemma getCoinbaseTransaction_valid (address : string) (blockIndex : Z) :
  validateCoinbaseTx (Some (getCoinbaseTransaction address blockIndex))
                     blockIndex
  = JsBool true.
Proof.
  unfold validateCoinbaseTx, getCoinbaseTransaction. simpl.
  unfold getTransactionId at 1. simpl.
  unfold getTransactionId. simpl.
  now rewrite String.eqb_refl, Z.eqb_refl.
Qed.

Lemma validateCoinbaseTx_range (transaction : option Transaction)
    (blockIndex : Z) :
  validateCoinbaseTx transaction blockIndex = JsBool true
  \/ validateCoinbaseTx transaction blockIndex = JsBool false
  \/ validateCoinbaseTx transaction blockIndex = JsUndefined.
Proof.
  unfold validateCoinbaseTx.
  repeat match goal with
         | |- context [match ?x with _ => _ end] => destruct x
         end; auto.
Qed.

(** C7 (as amended). [validateCoinbaseTx] returns [true] exactly when the
    transaction is present, its id is the digest of its content, it has
    exactly one input whose [txOutIndex] is the block index, and exactly
    one output whose amount is [COINBASE_AMOUNT], which is 50; and its
    result is truthy only when it is [true]. *)
Theorem validateCoinbaseTx_true_iff (transaction : option Transaction)
    (blockIndex : Z) :
  (validateCoinbaseTx transaction blockIndex = JsBool true <->
   exists t txIn txOut,
     transaction = Some t
     /\ getTransactionId t = id t
     /\ txIns t = [txIn] /\ txOutIndex txIn = blockIndex
     /\ txOuts t = [txOut] /\ amount txOut = COINBASE_AMOUNT)
  /\ (toBoolean (validateCoinbaseTx transaction blockIndex) = true <->
      validateCoinbaseTx transaction blockIndex = JsBool true)
  /\ COINBASE_AMOUNT = 50.
Proof.
  split; [|split; [|reflexivity]].
  - unfold validateCoinbaseTx.
    destruct transaction as [t|].
    2:{ split; [discriminate|]. now intros (t & i & o & H & _). }
    destruct (String.eqb _ _) eqn:Hid; simpl.
    2:{ apply String.eqb_neq in Hid. split; [discriminate|].
        intros (t' & i & o & [= <-] & H & _). contradiction. }
    apply String.eqb_eq in Hid.
    destruct (txIns t) as [|txIn [|txIn' ins]] eqn:Hins;
      try (split; [discriminate|];
           intros (t' & i & o & [= <-] & _ & H & _); congruence).
    destruct (txOutIndex txIn =? blockIndex) eqn:Hix; simpl.
    2:{ apply Z.eqb_neq in Hix. split; [discriminate|].
        intros (t' & i & o & [= <-] & _ & H & H' & _).
        rewrite Hins in H. injection H as <-. contradiction. }
    apply Z.eqb_eq in Hix.
    destruct (txOuts t) as [|txOut [|txOut' outs]] eqn:Houts;
      try (split; [discriminate|];
           intros (t' & i & o & [= <-] & _ & _ & _ & H & _); congruence).
    destruct (amount txOut =? COINBASE_AMOUNT) eqn:Ham; simpl.
    + apply Z.eqb_eq in Ham. split; [|reflexivity]. intros _.
      exists t, txIn, txOut. rewrite Hins, Houts. repeat split; assumption.
    + apply Z.eqb_neq in Ham. split; [discriminate|].
      intros (t' & i & o & [= <-] & _ & _ & _ & H & H').
      rewrite Houts in H. injection H as <-. contradiction.
  - destruct (validateCoinbaseTx_range transaction blockIndex)
      as [H | [H | H]]; rewrite H; simpl; split; congruence.
Qed.

End TransactionProperties.

(** ** The transaction engine on the example host *)

Section TransactionExamples.

Import Examples.
#[local] Existing Instance exampleHost.

(** C7, as stated, fails: [wrongIdCoinbase] has exactly one input with
    [txOutIndex] 1 and exactly one output of amount 50, and
    [validateCoinbaseTx] rejects it for block 1 because its id is not the
    digest of its content; and for [twoInputCoinbase] the result is
    [undefined], not a boolean. *)
Lemma validateCoinbaseTx_counterexample :
  (exists txIn txOut,
      txIns wrongIdCoinbase = [txIn] /\ txOutIndex txIn = 1
      /\ txOuts wrongIdCoinbase = [txOut] /\ amount txOut = 50)
  /\ validateCoinbaseTx (Some wrongIdCoinbase) 1 = JsBool false
  /\ validateCoinbaseTx (Some twoInputCoinbase) 1 = JsUndefined.
Proof.
  split; [|split; vm_compute; reflexivity].
  do 2 eexists. repeat split; reflexivity.
Qed.

Lemma validateCoinbaseTx_true_iff_witness :
  validateCoinbaseTx (Some (getCoinbaseTransaction minerAddress 1)) 1
  = JsBool true.
Proof.
  apply (proj1 (validateCoinbaseTx_true_iff _ 1)).
  exists (getCoinbaseTransaction minerAddress 1).
  do 2 eexists. repeat split; reflexivity.
Defined.

Lemma spendBoth_refs_distinct :
  NoDup (map txInRef (List.concat (map txIns spendBothBlockData))).
Proof.
  repeat constructor; simpl; intuition discriminate.
Qed.

(** C9. The inputs [("a1", 2)] and [("a", 12)] name different outputs
    and [hasDuplicates] reports a duplicate, because both are grouped
    under the key [a12]; and [validateBlockTransactions] returns [false]
    for a block whose inputs are pairwise distinct, whose coinbase is
    accepted and whose other transaction is valid on its own. *)
Theorem hasDuplicates_false_positive :
  (exists a b : TxIn,
      txInRef a <> txInRef b
      /\ (txOutId a ++ numToString (txOutIndex a) = "a12"
          /\ txOutId b ++ numToString (txOutIndex b) = "a12")
      /\ hasDuplicates [a; b] = true)
  /\ (exists (txs : list Transaction) (u : list UnspentTxOut.t)
             (blockIndex : Z),
        NoDup (map txInRef (List.concat (map txIns txs)))
        /\ toBoolean (validateCoinbaseTx (hd_error txs) blockIndex) = true
        /\ Forall (fun tx => validateTransaction tx u = Ok true) (tl txs)
        /\ hasDuplicates (List.concat (map txIns txs)) = true
        /\ validateBlockTransactions txs u blockIndex = Ok false)
  /\ (forall (h : Host) (u : list UnspentTxOut.t),
        let txs := [ @getCoinbaseTransaction h minerAddress 1;
                     mkTransaction "" [inputA; inputB] [] ] in
        NoDup (map txInRef (List.concat (map txIns txs)))
        /\ @validateBlockTransactions h txs u 1 = Ok false).
Proof.
  split; [|split].
  - exists inputA, inputB. split; [discriminate|].
    split; [split; reflexivity|]. reflexivity.
  - exists spendBothBlockData, twoOutputs, 1.
    split; [exact spendBoth_refs_distinct|].
    split; [vm_compute; reflexivity|].
    split; [apply Forall_cons; [vm_compute; reflexivity | apply Forall_nil]|].
    split; vm_compute; reflexivity.
  - intros h u txs. split.
    + repeat constructor; simpl; intuition discriminate.
    + unfold validateBlockTransactions. subst txs.
      cbv [hd_error]. rewrite getCoinbaseTransaction_valid.
      reflexivity.
Qed.

End TransactionExamples.

(** ** Block structure *)

(** C10. [isValidBlockStructure] looks at the types of [index], [hash],
    [previousHash], [timestamp] and [data] only: when these are number,
    string, string, number and object, it returns [true], whatever the
    other properties of the block are. *)
Theorem isValidBlockStructure_five_fields (block : JsObj) :
  typeof (getProp block "index") = "number" ->
  typeof (getProp block "hash") = "string" ->
  typeof (getProp block "previousHash") = "string" ->
  typeof (getProp block "timestamp") = "number" ->
  typeof (getProp block "data") = "object" ->
  isValidBlockStructure block = true.
Proof.
  intros Hi Hh Hp Ht Hd. unfold isValidBlockStructure.
  rewrite Hi, Hh, Hp, Ht, Hd. reflexivity.
Qed.

Lemma isValidBlockStructure_five_fields_witness :
  getProp Examples.looseBlock "difficulty" = JsUndefined
  /\ getProp Examples.looseBlock "nonce" = JsString "seven"
  /\ isValidBlockStructure Examples.looseBlock = true.
Proof.
  split; [reflexivity|]. split; [reflexivity|].
  apply (isValidBlockStructure_five_fields Examples.looseBlock);
    reflexivity.
Defined.

(** The converse: nothing but these five types makes it return [true]. *)
Lemma isValidBlockStructure_true_iff (block : JsObj) :
  isValidBlockStructure block = true <->
  typeof (getProp block "index") = "number"
  /\ typeof (getProp block "hash") = "string"
  /\ typeof (getProp block "previousHash") = "string"
  /\ typeof (getProp block "timestamp") = "number"
  /\ typeof (getProp block "data") = "object".
Proof.
  unfold isValidBlockStructure.
  rewrite !andb_true_iff, !String.eqb_eq. tauto.
Qed.

(** A block of the declared type always has a valid structure. *)
Lemma isValidBlockStructure_typed (b : Block) :
  isValidBlockStructure (Block_props b) = true.
Proof. reflexivity. Qed.

(** ** [JSON.stringify] determines a block

    The printed form of a block of the declared type can be read back
    field by field, so two blocks with the same printed form are equal. *)

Section JSONFacts.

#[local] Arguments numToString : simpl never.

Lemma unescape_escapeChar (c : ascii) (x : string) :
  unescapeChar (escapeChar c ++ x) = Some (c, x).
Proof.
  destruct c as [b0 b1 b2 b3 b4 b5 b6 b7].
  destruct b0, b1, b2, b3, b4, b5, b6, b7; reflexivity.
Qed.

Lemma append_assoc (a b c : string) : (a ++ b) ++ c = a ++ (b ++ c).
Proof. induction a as [|x a IH]; simpl; [reflexivity | now rewrite IH]. Qed.

Lemma append_inv_head (a x y : string) : a ++ x = a ++ y -> x = y.
Proof.
  induction a as [|c a IH]; simpl; [auto|]. intros H. injection H as H. auto.
Qed.

(** *** Strings *)

Lemma escape_decodable (s s' r r' : string) :
  escape s ++ String dquote r = escape s' ++ String dquote r' ->
  s = s' /\ r = r'.
Proof.
  revert s'. induction s as [|c s IH]; intros [|c' s']; simpl.
  - intros H. injection H as H. auto.
  - intros H. rewrite append_assoc in H.
    pose proof (f_equal unescapeChar H) as Hu.
    rewrite unescape_escapeChar in Hu. cbn in Hu.
    injection Hu as <- _. cbn in H. discriminate H.
  - intros H. rewrite append_assoc in H.
    pose proof (f_equal unescapeChar H) as Hu.
    rewrite unescape_escapeChar in Hu. cbn in Hu.
    injection Hu as -> _. cbn in H. discriminate H.
  - intros H. rewrite !append_assoc in H.
    pose proof (f_equal unescapeChar H) as Hu.
    rewrite !unescape_escapeChar in Hu.
    injection Hu as <- Hu. apply IH in Hu. destruct Hu as [<- <-]. auto.
Qed.

(** *** Numbers *)

Lemma string_of_uint_digits (d : Decimal.uint) :
  allDigits (NilEmpty.string_of_uint d).
Proof. induction d; simpl; auto. Qed.

Lemma digits_split (s1 s2 r1 r2 : string) :
  allDigits s1 -> allDigits s2 -> startsNonDigit r1 -> startsNonDigit r2 ->
  s1 ++ r1 = s2 ++ r2 -> s1 = s2 /\ r1 = r2.
Proof.
  revert s2. induction s1 as [|c s1 IH]; intros [|c' s2]; simpl.
  - auto.
  - intros _ [Hc _] Hr1 _ H. subst r1. simpl in Hr1. congruence.
  - intros [Hc _] _ _ Hr2 H. subst r2. simpl in Hr2. congruence.
  - intros [_ H1] [_ H2] Hr1 Hr2 H. injection H as <- H.
    destruct (IH s2 H1 H2 Hr1 Hr2 H) as [<- <-]. auto.
Qed.

Lemma uint_string_inj (d d' : Decimal.uint) :
  d <> Decimal.Nil -> d' <> Decimal.Nil ->
  NilEmpty.string_of_uint d = NilEmpty.string_of_uint d' -> d = d'.
Proof.
  intros Hd Hd' H.
  assert (E : NilZero.string_of_uint d = NilZero.string_of_uint d').
  { destruct d, d'; try contradiction; exact H. }
  apply (f_equal NilZero.uint_of_string) in E.
  rewrite !NilZero.usu in E by assumption. now injection E.
Qed.

Lemma to_int_cases (n : Z) :
  exists d, d <> Decimal.Nil
            /\ (numToString n = NilEmpty.string_of_uint d
                /\ Z.to_int n = Decimal.Pos d
                \/ numToString n = String "-" (NilEmpty.string_of_uint d)
                   /\ Z.to_int n = Decimal.Neg d).
Proof.
  unfold numToString. destruct n as [|p|p]; simpl.
  - exists (Decimal.D0 Decimal.Nil). split; [discriminate|]. left. auto.
  - exists (Pos.to_uint p). split; [apply DecimalPos.Unsigned.to_uint_nonnil|].
    left. split; [|reflexivity].
    pose proof (DecimalPos.Unsigned.to_uint_nonnil p). now destruct (Pos.to_uint p).
  - exists (Pos.to_uint p). split; [apply DecimalPos.Unsigned.to_uint_nonnil|].
    right. split; [|reflexivity].
    pose proof (DecimalPos.Unsigned.to_uint_nonnil p). now destruct (Pos.to_uint p).
Qed.

Lemma numToString_decodable (a b : Z) (r r' : string) :
  startsNonDigit r -> startsNonDigit r' ->
  numToString a ++ r = numToString b ++ r' -> a = b /\ r = r'.
Proof.
  intros Hr Hr' H.
  destruct (to_int_cases a) as (d & Hd & [[Ea Ia] | [Ea Ia]]);
    destruct (to_int_cases b) as (d' & Hd' & [[Eb Ib] | [Eb Ib]]);
    rewrite Ea, Eb in H.
  - destruct (digits_split _ _ _ _ (string_of_uint_digits d)
                (string_of_uint_digits d') Hr Hr' H) as [E <-].
    apply uint_string_inj in E; try assumption. subst d'.
    split; [|reflexivity]. apply DecimalZ.to_int_inj. congruence.
  - exfalso. pose proof (string_of_uint_digits d) as Hdig.
    destruct (NilEmpty.string_of_uint d) as [|c s] eqn:Es.
    + destruct d; try contradiction; discriminate Es.
    + simpl in H. injection H as -> _. destruct Hdig as [Hdig _].
      discriminate Hdig.
  - exfalso. pose proof (string_of_uint_digits d') as Hdig.
    destruct (NilEmpty.string_of_uint d') as [|c s] eqn:Es.
    + destruct d'; try contradiction; discriminate Es.
    + simpl in H. injection H as <- _. destruct Hdig as [Hdig _].
      discriminate Hdig.
  - simpl in H. injection H as H.
    destruct (digits_split _ _ _ _ (string_of_uint_digits d)
                (string_of_uint_digits d') Hr Hr' H) as [E <-].
    apply uint_string_inj in E; try assumption. subst d'.
    split; [|reflexivity]. apply DecimalZ.to_int_inj. congruence.
Qed.

(** *** Records and arrays *)

Ltac normalize_in H :=
  cbn in H; repeat (rewrite append_assoc in H; cbn in H).

(** Peel equal leading characters, then decode the next field. *)
Ltac decode_fields H :=
  repeat (injection H as H);
  repeat
    (first
       [ let E := fresh "E" in
         apply escape_decodable in H; destruct H as [E H];
         repeat (injection H as H)
       | let E := fresh "E" in
         apply numToString_decodable in H; [|exact eq_refl|exact eq_refl];
         destruct H as [E H]; repeat (injection H as H) ]).

Lemma TxIn_decodable (i i' : TxIn) (r r' : string) :
  JSON_stringify (TxIn_toJs i) ++ r = JSON_stringify (TxIn_toJs i') ++ r' ->
  i = i' /\ r = r'.
Proof.
  intros H. normalize_in H. decode_fields H.
  destruct i, i'; simpl in *; subst. auto.
Qed.

Lemma TxOut_decodable (o o' : TxOut) (r r' : string) :
  JSON_stringify (TxOut_toJs o) ++ r = JSON_stringify (TxOut_toJs o') ++ r' ->
  o = o' /\ r = r'.
Proof.
  intros H. normalize_in H. decode_fields H.
  destruct o, o'; simpl in *; subst. auto.
Qed.

Lemma concat_cons (x : string) (l : list string) (r : string) :
  String.concat "," (x :: l) ++ String "]" r
  = x ++ match l with
         | [] => String "]" r
         | _ => String "," (String.concat "," l ++ String "]" r)
         end.
Proof.
  destruct l as [|y l]; [reflexivity|].
  change (String.concat "," (x :: y :: l))
    with (x ++ "," ++ String.concat "," (y :: l)).
  now rewrite !append_assoc.
Qed.

Lemma array_decodable {A : Type} (enc : A -> string) :
  (forall a, exists t, enc a = String "{" t) ->
  (forall a b r r', enc a ++ r = enc b ++ r' -> a = b /\ r = r') ->
  forall l l' r r',
    String.concat "," (map enc l) ++ String "]" r
    = String.concat "," (map enc l') ++ String "]" r' ->
    l = l' /\ r = r'.
Proof.
  intros Hopen Hdec.
  induction l as [|a l IH]; intros [|b l'] r r'.
  - simpl. intros H. injection H as H. auto.
  - simpl map. rewrite concat_cons. destruct (Hopen b) as [t ->].
    simpl. discriminate.
  - simpl map. rewrite concat_cons. destruct (Hopen a) as [t ->].
    simpl. discriminate.
  - simpl map. rewrite !concat_cons. intros H.
    apply Hdec in H. destruct H as [<- H].
    destruct l as [|a' l]; destruct l' as [|b' l']; simpl map in H.
    + injection H as H. auto.
    + discriminate H.
    + discriminate H.
    + injection H as H. destruct (IH (b' :: l') r r' H) as [E <-].
      rewrite E. auto.
Qed.

Lemma TxIn_opens (i : TxIn) :
  exists t, JSON_stringify (TxIn_toJs i) = String "{" t.
Proof. eexists. cbn. reflexivity. Qed.

Lemma TxOut_opens (o : TxOut) :
  exists t, JSON_stringify (TxOut_toJs o) = String "{" t.
Proof. eexists. cbn. reflexivity. Qed.

Lemma Transaction_opens (t : Transaction) :
  exists s, JSON_stringify (Transaction_toJs t) = String "{" s.
Proof. eexists. cbn. reflexivity. Qed.

Lemma Transaction_decodable (t t' : Transaction) (r r' : string) :
  JSON_stringify (Transaction_toJs t) ++ r
  = JSON_stringify (Transaction_toJs t') ++ r' ->
  t = t' /\ r = r'.
Proof.
  intros H. normalize_in H. rewrite !map_map in H.
  repeat (injection H as H).
  apply (array_decodable _ TxIn_opens TxIn_decodable) in H.
  destruct H as [Eins H]. repeat (injection H as H).
  apply (array_decodable _ TxOut_opens TxOut_decodable) in H.
  destruct H as [Eouts H]. decode_fields H.
  destruct t, t'; simpl in *; subst. auto.
Qed.

Lemma Block_toJs_inj (b b' : Block) :
  JSON_stringify (Block_toJs b) = JSON_stringify (Block_toJs b') -> b = b'.
Proof.
  intros H.
  assert (H' : JSON_stringify (Block_toJs b) ++ ""
               = JSON_stringify (Block_toJs b') ++ "") by now rewrite H.
  clear H. normalize_in H'. rewrite !map_map in H'.
  decode_fields H'.
  apply (array_decodable _ Transaction_opens Transaction_decodable) in H'.
  destruct H' as [Edata H']. decode_fields H'.
  destruct b, b'; simpl in *; subst. reflexivity.
Qed.

End JSONFacts.

(** ** The chain engine *)

Section ChainProperties.

Context {host : Host}.

(** *** Validation of one block *)

Lemma hasValidHash_eq (block : Block) :
  hasValidHash block
  = if hashMatchesBlockContent block
    then if difficulty block <? 0 then Throw RangeError else Ok true
    else Ok false.
Proof.
  unfold hasValidHash, hashMatchesDifficulty, repeatZero.
  destruct (hashMatchesBlockContent block); simpl; [|reflexivity].
  now destruct (difficulty block <? 0).
Qed.

(** What [isValidNewBlock] requires: the five checks on index, link,
    time and content hash, and a difficulty for which [repeat] does not
    throw.  The outcome of [hashMatchesDifficulty] is not among them. *)
Lemma isValidNewBlock_true_iff (now : Z) (newBlock previousBlock : Block) :
  isValidNewBlock now newBlock previousBlock = Ok true <->
  index previousBlock + 1 = index newBlock
  /\ hash previousBlock = previousHash newBlock
  /\ timestamp previousBlock - 60 < timestamp newBlock
  /\ timestamp newBlock - 60 < now
  /\ calculateHashForBlock newBlock = hash newBlock
  /\ 0 <= difficulty newBlock.
Proof.
  unfold isValidNewBlock. rewrite isValidBlockStructure_typed. simpl.
  destruct (index previousBlock + 1 =? index newBlock) eqn:Hi; simpl.
  2:{ apply Z.eqb_neq in Hi. split; [discriminate | tauto]. }
  apply Z.eqb_eq in Hi.
  destruct (String.eqb (hash previousBlock) (previousHash newBlock))
    eqn:Hp; simpl.
  2:{ apply String.eqb_neq in Hp. split; [discriminate | tauto]. }
  apply String.eqb_eq in Hp.
  unfold isValidTimestamp.
  destruct (timestamp previousBlock - 60 <? timestamp newBlock) eqn:Ht1;
    simpl.
  2:{ apply Z.ltb_ge in Ht1. split; [discriminate|]. lia. }
  apply Z.ltb_lt in Ht1.
  destruct (timestamp newBlock - 60 <? now) eqn:Ht2; simpl.
  2:{ apply Z.ltb_ge in Ht2. split; [discriminate|]. lia. }
  apply Z.ltb_lt in Ht2.
  rewrite hasValidHash_eq. unfold hashMatchesBlockContent.
  destruct (String.eqb (calculateHashForBlock newBlock) (hash newBlock))
    eqn:Hh; simpl.
  2:{ apply String.eqb_neq in Hh. split; [discriminate | tauto]. }
  apply String.eqb_eq in Hh.
  destruct (difficulty newBlock <? 0) eqn:Hd; simpl.
  - apply Z.ltb_lt in Hd. split; [discriminate|]. lia.
  - apply Z.ltb_ge in Hd. tauto.
Qed.

(** *** Difficulty retargeting *)

(** On an argument that is as long as the current chain, [getDifficulty]
    is the retargeting rule applied to the argument's last block. *)
Lemma getDifficulty_same_length (s : State) (aBlockchain : list Block)
    (latestBlock : Block) :
  List.length aBlockchain = List.length (blockchain s) ->
  arrayGet aBlockchain (Z.of_nat (List.length aBlockchain) - 1)
  = Some latestBlock ->
  (~ atBoundary latestBlock ->
   getDifficulty s aBlockchain = Ok (difficulty latestBlock))
  /\ (atBoundary latestBlock ->
      forall prevAdjustmentBlock,
        arrayGet aBlockchain
          (Z.of_nat (List.length aBlockchain)
           - DIFFICULTY_ADJUSTMENT_INTERVAL)
        = Some prevAdjustmentBlock ->
        getDifficulty s aBlockchain
        = Ok (retarget latestBlock prevAdjustmentBlock)).
Proof.
  intros Hlen Hlast. unfold getDifficulty, atBoundary.
  rewrite <- Hlen, Hlast. simpl.
  destruct (Z.rem (index latestBlock) DIFFICULTY_ADJUSTMENT_INTERVAL =? 0)
    eqn:Hr; simpl.
  - apply Z.eqb_eq in Hr.
    destruct (index latestBlock =? 0) eqn:H0; simpl.
    + apply Z.eqb_eq in H0. split; [reflexivity | tauto].
    + apply Z.eqb_neq in H0. split; [tauto|].
      intros _ prev Hprev. unfold getAdjustedDifficulty, retarget.
      rewrite <- Hlen, Hprev. simpl.
      repeat match goal with
             | |- context [if ?c then _ else _] => destruct c
             end; reflexivity.
  - apply Z.eqb_neq in Hr. split; [reflexivity | tauto].
Qed.

(** *** [replaceChain] *)


(** *** [isValidChain] *)

Lemma isValidGenesis_true_iff (block : option Block) :
  isValidGenesis block = true <-> block = Some genesisBlock.
Proof.
  unfold isValidGenesis. destruct block as [b|].
  - rewrite String.eqb_eq. split.
    + intros H. f_equal. now apply Block_toJs_inj.
    + now intros [= ->].
  - split; discriminate.
Qed.

Lemma fold_applyBlock_None (chain : list Block) :
  fold_left applyBlock chain (Ok None) = Ok None.
Proof. induction chain as [|b chain IH]; simpl; auto. Qed.

Lemma fold_applyBlock_Throw (chain : list Block) (e : Exn) :
  fold_left applyBlock chain (Throw e) = Throw e.
Proof. induction chain as [|b chain IH]; simpl; auto. Qed.

Lemma isValidChainFrom_iff (clock : nat -> Z) (rest : list Block) :
  forall (i : nat) (previous : option Block) (u0 u : list UnspentTxOut.t),
    isValidChainFrom clock i previous rest u0 = Ok (Some u) <->
    linkedFrom clock i previous rest
    /\ fold_left applyBlock rest (Ok (Some u0)) = Ok (Some u).
Proof.
  induction rest as [|b rest IH]; intros i previous u0 u; simpl.
  - tauto.
  - set (check := match previous with
                  | Some previousBlock =>
                      isValidNewBlock (clock i) b previousBlock
                  | None => Ok true
                  end).
    assert (Hcheck : check = Ok true <->
                     match previous with
                     | Some previousBlock =>
                         isValidNewBlock (clock i) b previousBlock = Ok true
                     | None => True
                     end).
    { subst check. destruct previous; tauto. }
    rewrite <- Hcheck. clear Hcheck.
    destruct check as [[|]|e]; simpl.
    + destruct (processTransactions (data b) u0 (index b))
        as [[u1|]|e] eqn:Hp; simpl.
      * rewrite IH. tauto.
      * rewrite fold_applyBlock_None.
        split; [discriminate | intros [_ H]; discriminate].
      * rewrite fold_applyBlock_Throw.
        split; [discriminate | intros [_ H]; discriminate].
    + split; [discriminate | intros [[H _] _]; discriminate].
    + split; [discriminate | intros [[H _] _]; discriminate].
Qed.

(** The pairs of neighbours that [linkedFrom] speaks about. *)
Lemma linkedFrom_nth_error (clock : nat -> Z) (rest : list Block) :
  forall (i : nat) (previous : option Block),
    linkedFrom clock i previous rest ->
    forall (k : nat) (p b : Block),
      nth_error rest k = Some p -> nth_error rest (S k) = Some b ->
      isValidNewBlock (clock (i + S k)%nat) b p = Ok true.
Proof.
  induction rest as [|c rest IH]; intros i previous Hl k p b Hp Hb.
  - now destruct k.
  - destruct Hl as [_ Hl]. destruct k as [|k]; simpl in Hp, Hb.
    + injection Hp as <-. destruct rest as [|c' rest]; [discriminate|].
      injection Hb as <-. destruct Hl as [Hl _].
      now replace (i + 1)%nat with (S i) by lia.
    + replace (i + S (S k))%nat with (S i + S k)%nat by lia.
      now apply (IH (S i) (Some c) Hl k p b).
Qed.

(** C4. A chain whose first block is not the genesis block (an empty
    chain included) is rejected whatever follows; a chain that starts
    with the genesis block is accepted with the set [u] exactly when
    every further block passes [isValidNewBlock] against the block before
    it and folding [processTransactions] over the blocks yields [u]. *)
Theorem isValidChain_spec (clock : nat -> Z) :
  (forall first rest,
      first <> genesisBlock ->
      isValidChain clock (first :: rest) = Ok None)
  /\ isValidChain clock [] = Ok None
  /\ (forall rest u,
        isValidChain clock (genesisBlock :: rest) = Ok (Some u) <->
        linkedFrom clock 1 (Some genesisBlock) rest
        /\ deriveUnspentTxOuts (genesisBlock :: rest) = Ok (Some u))
  /\ (forall rest u,
        isValidChain clock (genesisBlock :: rest) = Ok (Some u) ->
        forall k p b,
          nth_error (genesisBlock :: rest) k = Some p ->
          nth_error (genesisBlock :: rest) (S k) = Some b ->
          isValidNewBlock (clock (S k)) b p = Ok true).
Proof.
  assert (Hgen : forall rest u,
             isValidChain clock (genesisBlock :: rest) = Ok (Some u) <->
             linkedFrom clock 0 None (genesisBlock :: rest)
             /\ deriveUnspentTxOuts (genesisBlock :: rest) = Ok (Some u)).
  { intros rest u. unfold isValidChain, deriveUnspentTxOuts.
    assert (Hg : isValidGenesis (arrayGet (genesisBlock :: rest) 0) = true)
      by now apply isValidGenesis_true_iff.
    rewrite Hg. simpl negb. cbv iota. apply isValidChainFrom_iff. }
  split; [|split; [|split]].
  - intros first rest Hne. unfold isValidChain.
    destruct (isValidGenesis (arrayGet (first :: rest) 0)) eqn:Hg;
      [|reflexivity].
    apply isValidGenesis_true_iff in Hg. simpl in Hg.
    injection Hg as Hg. contradiction.
  - reflexivity.
  - intros rest u. rewrite Hgen. simpl. tauto.
  - intros rest u H k p b Hp Hb. apply Hgen in H. destruct H as [Hl _].
    exact (linkedFrom_nth_error clock _ 0%nat None Hl k p b Hp Hb).
Qed.

(** *** The ledger invariant *)

Lemma deriveUnspentTxOuts_app (chain : list Block) (b : Block) :
  deriveUnspentTxOuts (chain ++ [b])
  = applyBlock (deriveUnspentTxOuts chain) b.
Proof. unfold deriveUnspentTxOuts. now rewrite fold_left_app. Qed.

Lemma isValidChain_derive (clock : nat -> Z) (chain : list Block)
    (u : list UnspentTxOut.t) :
  isValidChain clock chain = Ok (Some u) ->
  deriveUnspentTxOuts chain = Ok (Some u).
Proof.
  unfold isValidChain.
  destruct (isValidGenesis (arrayGet chain 0)); simpl; [|discriminate].
  intros H. now apply isValidChainFrom_iff in H.
Qed.

(** C2. In every ledger state reached from the initial state by calls of
    [addBlockToChain] and [replaceChain], the unspent outputs are the
    result of folding [processTransactions] over the blocks of the chain,
    in order, from the empty set; deriving them again gives the same set,
    also through [isValidChain] at any clock. *)
Theorem unspentTxOuts_derived (pool : TransactionPool) (s0 s : State) :
  initialState pool = Some s0 ->
  reachable s0 s ->
  deriveUnspentTxOuts (blockchain s) = Ok (Some (unspentTxOuts s))
  /\ (forall u1 u2,
        deriveUnspentTxOuts (blockchain s) = Ok (Some u1) ->
        deriveUnspentTxOuts (blockchain s) = Ok (Some u2) ->
        u1 = u2)
  /\ (forall clock u,
        isValidChain clock (blockchain s) = Ok (Some u) ->
        u = unspentTxOuts s).
Proof.
  intros Hinit Hreach.
  assert (Hinv : deriveUnspentTxOuts (blockchain s)
                 = Ok (Some (unspentTxOuts s))).
  { induction Hreach as [| s s' now newBlock added _ IH Hadd
                         | s s' clock newBlocks _ IH Hrep].
    - unfold initialState in Hinit.
      destruct (processTransactions (data genesisBlock) [] 0)
        as [[u|]|e] eqn:Hp; try discriminate.
      injection Hinit as <-. simpl. exact Hp.
    - unfold addBlockToChain, getUnspentTxOuts in Hadd.
      destruct (deref (getLatestBlock s)) as [latest|e]; simpl in Hadd;
        [|discriminate].
      destruct (isValidNewBlock now newBlock latest) as [[|]|e];
        simpl in Hadd; try discriminate.
      + destruct (processTransactions (data newBlock) (unspentTxOuts s)
                    (index newBlock)) as [[retVal|]|e] eqn:Hp;
          simpl in Hadd; try discriminate.
        * injection Hadd as _ <-. simpl.
          rewrite deriveUnspentTxOuts_app, IH. simpl. exact Hp.
        * injection Hadd as _ <-. exact IH.
      + injection Hadd as _ <-. exact IH.
    - unfold replaceChain in Hrep.
      destruct (isValidChain clock newBlocks) as [[u|]|e] eqn:Hv;
        simpl in Hrep; try discriminate.
      + destruct (getAccumulatedDifficulty newBlocks) as [new|e];
          simpl in Hrep; [|discriminate].
        destruct (getAccumulatedDifficulty (getBlockchain s))
          as [current|e]; simpl in Hrep; [|discriminate].
        destruct (Qle_bool new current); simpl in Hrep.
        * injection Hrep as <-. exact IH.
        * injection Hrep as <-. simpl.
          now apply isValidChain_derive with (clock := clock).
      + injection Hrep as <-. exact IH. }
  split; [exact Hinv|]. split.
  - intros u1 u2 H1 H2. congruence.
  - intros clock u H. apply isValidChain_derive in H. congruence.
Qed.

End ChainProperties.

(** ** The chain engine on the example host *)

Section ChainExamples.

Import Examples.
#[local] Existing Instance exampleHost.

Lemma startState_initial : initialState [] = Some startState.
Proof. vm_compute. reflexivity. Qed.

(** C1 fails on the code: [easyBlock] declares difficulty 1, the binary
    form of its hash starts with 1, so [hashMatchesDifficulty] is false
    for it, and [isValidNewBlock] accepts it on top of the genesis block;
    [addBlockToChain] then appends it to the chain. *)
Theorem isValidNewBlock_ignores_difficulty :
  hashMatchesDifficulty (hash easyBlock) (difficulty easyBlock) = Ok false
  /\ isValidNewBlock later easyBlock genesisBlock = Ok true
  /\ exists s',
       addBlockToChain later startState easyBlock = Ok (true, s')
       /\ blockchain s' = [genesisBlock; easyBlock].
Proof.
  split; [vm_compute; reflexivity|].
  split; [vm_compute; reflexivity|].
  eexists. split; [vm_compute; reflexivity | reflexivity].
Qed.


Lemma afterHonest_reachable : reachable startState afterHonest.
Proof.
  apply (reachable_addBlockToChain startState startState afterHonest
           later honestBlock true).
  - apply reachable_start.
  - vm_compute. reflexivity.
Defined.

Lemma afterReplace_reachable : reachable startState afterReplace.
Proof.
  apply (reachable_replaceChain startState afterHonest afterReplace
           (constClock later) [genesisBlock; easyBlock]).
  - exact afterHonest_reachable.
  - vm_compute. reflexivity.
Defined.

Lemma unspentTxOuts_derived_witness :
  blockchain afterReplace = [genesisBlock; easyBlock]
  /\ deriveUnspentTxOuts (blockchain afterReplace)
     = Ok (Some (unspentTxOuts afterReplace)).
Proof.
  split; [vm_compute; reflexivity|].
  exact (proj1 (unspentTxOuts_derived [] startState afterReplace
                  startState_initial afterReplace_reachable)).
Defined.


Lemma isValidChain_spec_witness :
  isValidChain (constClock later) [honestBlock; genesisBlock] = Ok None
  /\ exists u,
       isValidChain (constClock later) [genesisBlock; honestBlock]
       = Ok (Some u).
Proof.
  split.
  - apply (proj1 (isValidChain_spec (constClock later))). discriminate.
  - eexists.
    apply (proj1 (proj2 (proj2 (isValidChain_spec (constClock later))))).
    split; [split; [vm_compute; reflexivity | exact I]|].
    vm_compute. reflexivity.
Defined.



End ChainExamples.

(** * Further properties *)

(** ** [hasDuplicates] *)

Section DuplicateFacts.

Lemma countInsert_counts (key : string) (groups : list (string * nat))
    (c : string -> nat) :
  NoDup (map fst groups) ->
  (forall k n, In (k, n) groups <-> n = c k /\ (0 < n)%nat) ->
  NoDup (map fst (countInsert key groups))
  /\ (forall k n,
        In (k, n) (countInsert key groups) <->
        n = (c k + if String.eqb key k then 1 else 0)%nat /\ (0 < n)%nat).
Proof.
  revert c. induction groups as [|[k0 n0] groups IH]; intros c Hnd Hc; simpl.
  - split; [constructor; [simpl; tauto | constructor]|].
    intros k n. split.
    + intros [[= <- <-] | []]. rewrite String.eqb_refl.
      assert (c key = 0)%nat.
      { destruct (c key) eqn:E; [reflexivity|]. exfalso.
        apply (proj2 (Hc key (S n))). split; [now rewrite E | lia]. }
      lia.
    + intros [-> Hpos]. destruct (String.eqb key k) eqn:E.
      * apply String.eqb_eq in E. subst k.
        assert (c key = 0)%nat.
        { destruct (c key) eqn:E; [reflexivity|]. exfalso.
          apply (proj2 (Hc key (S n))). split; [now rewrite E | lia]. }
        left. f_equal. lia.
      * exfalso. apply (proj2 (Hc k (c k + 0)%nat)). split; lia.
  - inversion Hnd as [|? ? Hnotin Hnd']; subst. simpl in Hnotin.
    assert (Hhead : n0 = c k0 /\ (0 < n0)%nat)
      by (apply Hc; now left).
    destruct (String.eqb key k0) eqn:E.
    + apply String.eqb_eq in E. subst k0. split.
      * simpl. now constructor.
      * intros k n. simpl. split.
        -- intros [[= <- <-] | Hin].
           ++ rewrite String.eqb_refl. lia.
           ++ assert (Hk : key <> k).
              { intros ->. apply Hnotin.
                now apply (in_map fst) in Hin. }
              apply String.eqb_neq in Hk. rewrite Hk.
              assert (H : In (k, n) ((key, n0) :: groups)) by now right.
              apply Hc in H. lia.
        -- intros [-> Hpos]. destruct (String.eqb key k) eqn:E.
           ++ apply String.eqb_eq in E. subst k. left. f_equal. lia.
           ++ assert (H : In (k, c k) ((key, n0) :: groups)).
              { apply Hc. split; lia. }
              destruct H as [[= <- _] | H].
              ** rewrite String.eqb_refl in E. discriminate.
              ** right. now replace (c k + 0)%nat with (c k) by lia.
    + apply String.eqb_neq in E.
      set (c' := fun k => if String.eqb k k0 then 0%nat else c k).
      destruct (IH c' Hnd') as [IH1 IH2].
      { intros k n. split.
        - intros Hin.
          assert (Hk : k <> k0).
          { intros ->. apply Hnotin. now apply (in_map fst) in Hin. }
          unfold c'. apply String.eqb_neq in Hk. rewrite Hk.
          apply Hc. now right.
        - unfold c'. intros [-> Hpos].
          destruct (String.eqb k k0) eqn:Ek; [lia|].
          assert (H : In (k, c k) ((k0, n0) :: groups))
            by (apply Hc; split; lia).
          destruct H as [[= -> _] | H]; [|exact H].
          rewrite String.eqb_refl in Ek. discriminate. }
      split.
      * simpl. constructor; [|exact IH1].
        intros Hin. apply in_map_iff in Hin.
        destruct Hin as ([k n] & Hk & Hin). simpl in Hk. subst k.
        apply IH2 in Hin. unfold c' in Hin.
        rewrite String.eqb_refl in Hin.
        apply String.eqb_neq in E. rewrite E in Hin. lia.
      * intros k n. simpl. rewrite IH2. unfold c'. split.
        -- intros [[= <- <-] | [-> Hpos]].
           ++ apply String.eqb_neq in E. rewrite E. lia.
           ++ destruct (String.eqb k k0) eqn:Ek; [|lia].
              apply String.eqb_eq in Ek. subst k.
              apply String.eqb_neq in E. rewrite E in Hpos. lia.
        -- intros [-> Hpos]. destruct (String.eqb k k0) eqn:Ek.
           ++ apply String.eqb_eq in Ek. subst k. left.
              apply String.eqb_neq in E. rewrite E. f_equal. lia.
           ++ right. split; [reflexivity | exact Hpos].
Qed.

Lemma countBy_counts {A : Type} (key : A -> string) (a : list A) :
  forall (groups : list (string * nat)) (c : string -> nat),
    NoDup (map fst groups) ->
    (forall k n, In (k, n) groups <-> n = c k /\ (0 < n)%nat) ->
    forall k n,
      In (k, n) (fold_left (fun g x => countInsert (key x) g) a groups) <->
      n = (c k + count_occ string_dec (map key a) k)%nat /\ (0 < n)%nat.
Proof.
  induction a as [|x a IH]; intros groups c Hnd Hc k n; simpl.
  - rewrite Hc. split; intros [-> H]; split; lia.
  - destruct (countInsert_counts (key x) groups c Hnd Hc) as [Hnd' Hc'].
    rewrite (IH _ _ Hnd' Hc').
    destruct (string_dec (key x) k) as [->|Hne].
    + rewrite String.eqb_refl. split; intros [-> H]; split; lia.
    + apply String.eqb_neq in Hne. rewrite Hne.
      split; intros [-> H]; split; lia.
Qed.

Lemma hasDuplicates_false_keys (txIns : list TxIn) :
  hasDuplicates txIns = false <-> NoDup (map duplicateKey txIns).
Proof.
  { unfold hasDuplicates, countBy.
    pose proof (countBy_counts duplicateKey txIns [] (fun _ => 0%nat)
                  (NoDup_nil _)) as Hc.
    assert (Hc0 : forall (k : string) (n : nat),
               In (k, n) [] <-> n = 0%nat /\ (0 < n)%nat)
      by (intros k n; simpl; lia).
    specialize (Hc Hc0). clear Hc0. fold duplicateKey.
    change (fun txIn : TxIn => txOutId txIn ++ numToString (txOutIndex txIn))
      with duplicateKey.
    set (groups := fold_left _ txIns []) in *.
    rewrite (NoDup_count_occ string_dec). split.
    - intros Hf k.
      destruct (le_lt_dec (count_occ string_dec (map duplicateKey txIns) k) 1)
        as [Hle|Hgt]; [exact Hle|]. exfalso.
      apply not_true_iff_false in Hf. apply Hf.
      apply existsb_exists. exists true. split; [|reflexivity].
      apply in_map_iff.
      exists (k, count_occ string_dec (map duplicateKey txIns) k). split.
      + simpl. destruct (Nat.ltb_spec 1
          (count_occ string_dec (map duplicateKey txIns) k)); [reflexivity|lia].
      + apply Hc. split; simpl; lia.
    - intros Hle. apply not_true_iff_false. intros Ht.
      apply existsb_exists in Ht. destruct Ht as (r & Hin & Hr).
      apply in_map_iff in Hin. destruct Hin as ([k n] & Hkn & Hin).
      simpl in Hkn. apply Hc in Hin. destruct Hin as [-> _]. simpl in Hkn.
      specialize (Hle k).
      destruct (Nat.ltb_spec 1
        (count_occ string_dec (map duplicateKey txIns) k)); [lia|].
      subst r. discriminate. }
Qed.

Lemma hasDuplicates_false_references (txIns : list TxIn) :
  hasDuplicates txIns = false -> NoDup (map referenceOf txIns).
Proof.
  intros H. apply hasDuplicates_false_keys in H.
  replace (map duplicateKey txIns)
    with (map (fun r : string * Z => fst r ++ numToString (snd r))
              (map referenceOf txIns)) in H
    by (rewrite map_map; reflexivity).
  now apply NoDup_map_inv in H.
Qed.

(** X1. [hasDuplicates] reports a duplicate exactly when two of the
    inputs have the same key [txOutId + txOutIndex]; so whenever it
    returns [false], no two inputs name the same output, and whenever two
    inputs name the same output, it returns [true]. *)
Theorem hasDuplicates_iff (txIns : list TxIn) :
  (hasDuplicates txIns = false <-> NoDup (map duplicateKey txIns))
  /\ (hasDuplicates txIns = false -> NoDup (map referenceOf txIns))
  /\ (~ NoDup (map referenceOf txIns) -> hasDuplicates txIns = true).
Proof.
  split; [apply hasDuplicates_false_keys|].
  split; [apply hasDuplicates_false_references|].
  intros Hdup. destruct (hasDuplicates txIns) eqn:H; [reflexivity|].
  exfalso. apply Hdup. now apply hasDuplicates_false_references.
Qed.

End DuplicateFacts.

(** ** Value accounting of [processTransactions] *)

Section Accounting.

Context {host : Host}.













End Accounting.

(** ** One block: errors, the clock, and what the hash covers *)

Section BlockFacts.

Context {host : Host}.



Lemma isValidNewBlock_later (now now' : Z) (newBlock previousBlock : Block) :
  now <= now' ->
  isValidNewBlock now newBlock previousBlock = Ok true ->
  isValidNewBlock now' newBlock previousBlock = Ok true.
Proof.
  intros Hle H. apply isValidNewBlock_true_iff in H.
  apply isValidNewBlock_true_iff. intuition lia.
Qed.

Lemma linkedFrom_later (clock clock' : nat -> Z) (rest : list Block) :
  forall (i : nat) (previous : option Block),
    (forall j, clock j <= clock' j) ->
    linkedFrom clock i previous rest ->
    linkedFrom clock' i previous rest.
Proof.
  induction rest as [|b rest IH]; intros i previous Hle Hl; simpl;
    [exact I|].
  destruct Hl as [Hb Hl]. split; [|now apply IH].
  destruct previous as [p|]; [|exact I].
  now apply isValidNewBlock_later with (now := clock i).
Qed.

(** X4. A block or a chain that is valid at some clock readings is valid,
    with the same unspent outputs, at all later readings. *)
Theorem validity_persists (clock clock' : nat -> Z) :
  (forall j, clock j <= clock' j) ->
  (forall (i : nat) newBlock previousBlock,
      isValidNewBlock (clock i) newBlock previousBlock = Ok true ->
      isValidNewBlock (clock' i) newBlock previousBlock = Ok true)
  /\ (forall chain u,
        isValidChain clock chain = Ok (Some u) ->
        isValidChain clock' chain = Ok (Some u)).
Proof.
  intros Hle. split.
  - intros i b p. now apply isValidNewBlock_later.
  - intros chain u. unfold isValidChain.
    destruct (isValidGenesis (arrayGet chain 0)); simpl; [|discriminate].
    rewrite !isValidChainFrom_iff. intros [Hl Hd]. split; [|exact Hd].
    now apply linkedFrom_later with (clock := clock).
Qed.

Lemma arrayToString_length (d d' : list Transaction) :
  List.length d = List.length d' -> arrayToString d = arrayToString d'.
Proof.
  unfold arrayToString. intros H. f_equal. revert d' H.
  induction d as [|t d IH]; intros [|t' d'] H; try discriminate;
    simpl; [reflexivity|].
  f_equal. apply IH. now injection H.
Qed.

(** X5. The block hash covers the number of transactions of a block and
    nothing else of them: two blocks with the same header and equally many
    transactions have the same content hash, and [isValidNewBlock] gives
    the same verdict on both. *)
Theorem block_hash_ignores_transactions (b b' : Block) :
  sameHeader b b' ->
  calculateHashForBlock b = calculateHashForBlock b'
  /\ forall now previousBlock,
       isValidNewBlock now b previousBlock
       = isValidNewBlock now b' previousBlock.
Proof.
  intros (Hi & Hh & Hp & Ht & Hd & Hn & Hlen).
  assert (Hc : calculateHashForBlock b = calculateHashForBlock b').
  { unfold calculateHashForBlock, calculateHash.
    rewrite Hi, Hp, Ht, Hd, Hn, (arrayToString_length _ _ Hlen).
    reflexivity. }
  split; [exact Hc|]. intros now p.
  unfold isValidNewBlock, isValidTimestamp, hasValidHash,
    hashMatchesBlockContent.
  rewrite !isValidBlockStructure_typed, Hc, Hi, Hh, Hp, Ht, Hd.
  reflexivity.
Qed.

End BlockFacts.

(** ** The reachable ledgers *)

Section LedgerFacts.

Context {host : Host}.


Lemma last_cons {A : Type} (l : list A) (x d : A) :
  last (x :: l) d = last l x.
Proof.
  revert x d. induction l as [|y l IH]; intros x d; [reflexivity|].
  change (last (x :: y :: l) d) with (last (y :: l) d).
  now rewrite (IH y d), (IH y x).
Qed.

Lemma arrayGet_last (g : Block) (rest : list Block) :
  arrayGet (g :: rest) (Z.of_nat (List.length (g :: rest)) - 1)
  = Some (last rest g).
Proof.
  unfold arrayGet.
  replace (Z.of_nat (List.length (g :: rest)) - 1)
    with (Z.of_nat (List.length rest)) by (simpl List.length; lia).
  destruct (Z.ltb_spec (Z.of_nat (List.length rest)) 0) as [H|_]; [lia|].
  rewrite Nat2Z.id. revert g.
  induction rest as [|b rest IH]; intros g; [reflexivity|].
  simpl List.length. simpl nth_error. rewrite (IH b).
  now rewrite last_cons.
Qed.

Lemma linkedFrom_snoc (clock : nat -> Z) (rest : list Block) :
  forall (i : nat) (p b : Block),
    linkedFrom clock i (Some p) rest ->
    isValidNewBlock (clock (i + List.length rest)%nat) b (last rest p)
    = Ok true ->
    linkedFrom clock i (Some p) (rest ++ [b]).
Proof.
  induction rest as [|c rest IH]; intros i p b Hl Hb.
  - simpl in Hb |- *. rewrite Nat.add_0_r in Hb. auto.
  - destruct Hl as [Hc Hl]. split; [exact Hc|].
    apply IH; [exact Hl|]. rewrite last_cons in Hb.
    now replace (S i + List.length rest)%nat
      with (i + List.length (c :: rest))%nat by (simpl; lia).
Qed.

(** Constant-free bound on finitely many clock readings. *)
Lemma clock_bound (clock : nat -> Z) (n : nat) :
  exists bound, forall j, (j < n)%nat -> clock j <= bound.
Proof.
  induction n as [|n [bound IH]].
  - exists 0. intros j Hj. lia.
  - exists (Z.max bound (clock n)). intros j Hj.
    destruct (Nat.eq_dec j n) as [->|Hne]; [lia|].
    specialize (IH j). lia.
Qed.

Lemma linkedFrom_bounded (clock clock' : nat -> Z) (rest : list Block) :
  forall (i : nat) (previous : option Block),
    (forall j, (j < i + List.length rest)%nat -> clock j <= clock' j) ->
    linkedFrom clock i previous rest ->
    linkedFrom clock' i previous rest.
Proof.
  induction rest as [|b rest IH]; intros i previous Hle Hl; simpl;
    [exact I|].
  destruct Hl as [Hb Hl]. split.
  - destruct previous as [p|]; [|exact I].
    apply isValidNewBlock_later with (now := clock i); [|exact Hb].
    apply Hle. simpl. lia.
  - apply IH; [|exact Hl]. intros j Hj. apply Hle. simpl. lia.
Qed.

(** What every reachable ledger satisfies. *)
Lemma reachable_invariant (pool : TransactionPool) (s0 s : State) :
  initialState pool = Some s0 ->
  reachable s0 s ->
  exists rest now0,
    blockchain s = genesisBlock :: rest
    /\ (forall clock,
          lateEnough now0 clock ->
          linkedFrom clock 1 (Some genesisBlock) rest)
    /\ deriveUnspentTxOuts (blockchain s) = Ok (Some (unspentTxOuts s)).
Proof.
  intros Hinit Hreach.
  induction Hreach as [| s s' now newBlock added _ IH Hadd
                       | s s' clock newBlocks _ IH Hrep].
  - unfold initialState in Hinit.
    destruct (processTransactions (data genesisBlock) [] 0)
      as [[u|]|e] eqn:Hp; try discriminate.
    injection Hinit as <-. exists [], 0. simpl.
    split; [reflexivity|]. split; [intros _ _; exact I | exact Hp].
  - destruct IH as (rest & now0 & Hchain & Hlinked & Hderive).
    assert (Hlatest : getLatestBlock s = Some (last rest genesisBlock)).
    { unfold getLatestBlock. rewrite Hchain. apply arrayGet_last. }
    unfold addBlockToChain, getUnspentTxOuts in Hadd.
    rewrite Hlatest in Hadd. simpl in Hadd.
    destruct (isValidNewBlock now newBlock (last rest genesisBlock))
      as [[|]|e] eqn:Hv; simpl in Hadd; try discriminate.
    + destruct (processTransactions (data newBlock) (unspentTxOuts s)
                  (index newBlock)) as [[retVal|]|e] eqn:Hp;
        simpl in Hadd; try discriminate.
      * injection Hadd as _ <-. simpl.
        exists (rest ++ [newBlock])%list, (Z.max now0 now).
        split; [now rewrite Hchain|]. split.
        -- intros clock Hlate. apply linkedFrom_snoc.
           ++ apply Hlinked. intros i. specialize (Hlate i). lia.
           ++ apply isValidNewBlock_later with (now := now); [|exact Hv].
              specialize (Hlate (1 + List.length rest)%nat). lia.
        -- rewrite deriveUnspentTxOuts_app, Hderive. simpl. exact Hp.
      * injection Hadd as _ <-. now exists rest, now0.
    + injection Hadd as _ <-. now exists rest, now0.
  - unfold replaceChain in Hrep.
    destruct (isValidChain clock newBlocks) as [[u|]|e] eqn:Hv;
      simpl in Hrep; try discriminate.
    + destruct (getAccumulatedDifficulty newBlocks) as [new|e];
        simpl in Hrep; [|discriminate].
      destruct (getAccumulatedDifficulty (getBlockchain s))
        as [current|e]; simpl in Hrep; [|discriminate].
      destruct (Qle_bool new current); simpl in Hrep.
      * injection Hrep as <-. exact IH.
      * injection Hrep as <-. simpl.
        pose proof (isValidChain_derive _ _ _ Hv) as Hd.
        unfold isValidChain in Hv.
        destruct (isValidGenesis (arrayGet newBlocks 0)) eqn:Hg;
          simpl in Hv; [|discriminate].
        apply isValidGenesis_true_iff in Hg.
        destruct newBlocks as [|g rest]; [discriminate Hg|].
        unfold arrayGet in Hg. simpl in Hg. injection Hg as ->.
        apply isValidChainFrom_iff in Hv. destruct Hv as [[_ Hl] _].
        destruct (clock_bound clock (1 + List.length rest)) as [bound Hb].
        exists rest, bound. split; [reflexivity|]. split; [|exact Hd].
        intros clock' Hlate.
        apply linkedFrom_bounded with (clock := clock); [|exact Hl].
        intros j Hj. specialize (Hb j Hj). specialize (Hlate j). lia.
    + injection Hrep as <-. exact IH.
Qed.


Lemma linked_index (clock : nat -> Z) (rest : list Block) :
  forall (i : nat) (p : Block),
    linkedFrom clock i (Some p) rest ->
    forall k b, nth_error rest k = Some b ->
                index b = index p + 1 + Z.of_nat k.
Proof.
  induction rest as [|c rest IH]; intros i p Hl k b Hk.
  - now destruct k.
  - destruct Hl as [Hc Hl]. apply isValidNewBlock_true_iff in Hc.
    destruct k as [|k]; simpl in Hk.
    + injection Hk as <-. lia.
    + rewrite (IH _ _ Hl k b Hk). lia.
Qed.

Lemma reachable_positions (pool : TransactionPool) (s0 s : State) :
  initialState pool = Some s0 ->
  reachable s0 s ->
  nth_error (blockchain s) 0 = Some genesisBlock
  /\ (forall k b,
        nth_error (blockchain s) k = Some b -> index b = Z.of_nat k)
  /\ (forall k p b,
        nth_error (blockchain s) k = Some p ->
        nth_error (blockchain s) (S k) = Some b ->
        hash p = previousHash b
        /\ timestamp p - 60 < timestamp b
        /\ calculateHashForBlock b = hash b
        /\ 0 <= difficulty b).
Proof.
  intros Hinit Hreach.
  destruct (reachable_invariant pool s0 s Hinit Hreach)
    as (rest & now0 & Hchain & Hlinked & _).
  specialize (Hlinked (fun _ => now0)).
  assert (Hl : linkedFrom (fun _ => now0) 1 (Some genesisBlock) rest)
    by (apply Hlinked; intros i; lia).
  rewrite Hchain. split; [reflexivity|]. split.
  - intros [|k] b Hk; simpl in Hk.
    + now injection Hk as <-.
    + rewrite (linked_index _ _ _ _ Hl k b Hk). simpl index. lia.
  - intros k p b Hp Hb.
    assert (H : isValidNewBlock now0 b p = Ok true).
    { exact (linkedFrom_nth_error (fun _ => now0) (genesisBlock :: rest)
               0%nat None (conj I Hl) k p b Hp Hb). }
    apply isValidNewBlock_true_iff in H. tauto.
Qed.

Lemma reachable_difficulty (pool : TransactionPool) (s0 s : State) :
  initialState pool = Some s0 ->
  reachable s0 s ->
  forall k b, nth_error (blockchain s) k = Some b -> 0 <= difficulty b.
Proof.
  intros Hinit Hreach k b Hk.
  destruct (reachable_positions pool s0 s Hinit Hreach) as (H0 & _ & Hl).
  destruct k as [|k].
  - rewrite H0 in Hk. injection Hk as <-. simpl. lia.
  - destruct (nth_error (blockchain s) k) as [p|] eqn:Hp.
    + now apply (Hl k p b Hp Hk).
    + exfalso. apply nth_error_None in Hp.
      assert (nth_error (blockchain s) (S k) <> None) by congruence.
      apply nth_error_Some in H. lia.
Qed.

(** X7. In every reachable ledger the chain starts with the genesis
    block, the block at position [k] has index [k], and every block after
    the first links to the block before it: it carries that block's hash
    as [previousHash], its timestamp is less than 60 seconds older, its
    hash is the hash of its content and its difficulty is not negative. *)
Theorem reachable_chain_wellformed (pool : TransactionPool)
    (s0 s : State) :
  initialState pool = Some s0 ->
  reachable s0 s ->
  nth_error (blockchain s) 0 = Some genesisBlock
  /\ (forall k b,
        nth_error (blockchain s) k = Some b -> index b = Z.of_nat k)
  /\ (forall k p b,
        nth_error (blockchain s) k = Some p ->
        nth_error (blockchain s) (S k) = Some b ->
        hash p = previousHash b
        /\ timestamp p - 60 < timestamp b
        /\ calculateHashForBlock b = hash b
        /\ 0 <= difficulty b).
Proof. exact (reachable_positions pool s0 s). Qed.


(** *** Accumulated difficulty *)





(** *** Retargeting on the chain of the ledger *)

(** X10. On a reachable ledger [getDifficulty], called with the chain of
    the ledger as in [generateRawNextBlock], never throws.  Off an
    interval boundary it returns the difficulty of the latest block; at a
    boundary it retargets against the block nine positions before the
    latest one, and the result is never below -1. *)
Theorem getDifficulty_on_reachable (pool : TransactionPool) (s0 s : State) :
  initialState pool = Some s0 ->
  reachable s0 s ->
  exists latestBlock,
    getLatestBlock s = Some latestBlock
    /\ (~ atBoundary latestBlock ->
        getDifficulty s (blockchain s) = Ok (difficulty latestBlock))
    /\ (atBoundary latestBlock ->
        exists prevAdjustmentBlock,
          nth_error (blockchain s) (Z.to_nat (index latestBlock - 9))
          = Some prevAdjustmentBlock
          /\ index prevAdjustmentBlock = index latestBlock - 9
          /\ getDifficulty s (blockchain s)
             = Ok (retarget latestBlock prevAdjustmentBlock))
    /\ (exists d, getDifficulty s (blockchain s) = Ok d /\ -1 <= d).
Proof.
  intros Hinit Hreach.
  destruct (reachable_invariant pool s0 s Hinit Hreach)
    as (rest & now0 & Hchain & _ & _).
  pose proof (reachable_positions pool s0 s Hinit Hreach)
    as (_ & Hindex & _).
  pose proof (reachable_difficulty pool s0 s Hinit Hreach) as Hdiff.
  set (latest := last rest genesisBlock).
  assert (Hlatest : arrayGet (blockchain s)
                      (Z.of_nat (List.length (blockchain s)) - 1)
                    = Some latest).
  { rewrite Hchain. apply arrayGet_last. }
  assert (Hnth : nth_error (blockchain s) (List.length rest) = Some latest).
  { unfold arrayGet in Hlatest. rewrite Hchain in Hlatest |- *.
    simpl List.length in Hlatest.
    destruct (Z.ltb_spec (Z.of_nat (S (List.length rest)) - 1) 0);
      [lia|].
    now replace (Z.to_nat (Z.of_nat (S (List.length rest)) - 1))
      with (List.length rest) in Hlatest by lia. }
  assert (Hix : index latest = Z.of_nat (List.length rest))
    by now apply Hindex.
  destruct (getDifficulty_same_length s (blockchain s) latest eq_refl
              Hlatest) as [Hoff Hat].
  assert (Hprev : atBoundary latest ->
            exists prev,
              nth_error (blockchain s) (Z.to_nat (index latest - 9))
              = Some prev
              /\ index prev = index latest - 9
              /\ getDifficulty s (blockchain s) = Ok (retarget latest prev)).
  { intros Hb. pose proof Hb as [Hrem Hne].
    unfold DIFFICULTY_ADJUSTMENT_INTERVAL in Hrem.
    assert (H10 : 10 <= index latest).
    { rewrite Hix in *. apply Z.rem_divide in Hrem; [|lia].
      destruct Hrem as [q Hq]. lia. }
    destruct (nth_error (blockchain s) (Z.to_nat (index latest - 9)))
      as [prev|] eqn:Hp.
    2:{ exfalso. apply nth_error_None in Hp. rewrite Hchain in Hp.
        simpl in Hp. lia. }
    exists prev. split; [reflexivity|]. split.
    - rewrite (Hindex _ _ Hp). lia.
    - apply Hat; [exact Hb|]. unfold arrayGet.
      unfold DIFFICULTY_ADJUSTMENT_INTERVAL.
      assert (Hlen : Z.of_nat (List.length (blockchain s)) - 10
                     = index latest - 9)
        by (rewrite Hchain; simpl List.length; lia).
      rewrite Hlen.
      destruct (Z.ltb_spec (index latest - 9) 0); [lia | exact Hp]. }
  exists latest. split; [exact Hlatest|]. split; [exact Hoff|].
  split; [exact Hprev|].
  destruct (Z.eq_dec (Z.rem (index latest) DIFFICULTY_ADJUSTMENT_INTERVAL) 0)
    as [Hr|Hr]; [destruct (Z.eq_dec (index latest) 0) as [H0|H0]|].
  - exists (difficulty latest). split.
    + apply Hoff. intros [_ H]. contradiction.
    + specialize (Hdiff _ _ Hnth). lia.
  - destruct (Hprev (conj Hr H0)) as (prev & Hp & _ & Hd).
    exists (retarget latest prev). split; [exact Hd|].
    specialize (Hdiff _ _ Hp). unfold retarget.
    repeat match goal with
           | |- context [if ?c then _ else _] => destruct c
           end; lia.
  - exists (difficulty latest). split.
    + apply Hoff. intros [H _]. contradiction.
    + specialize (Hdiff _ _ Hnth). lia.
Qed.

End LedgerFacts.

(** ** Mining *)

Section MiningFacts.

Context {host : Host}.

Lemma hashMatchesDifficulty_cases (h : string) (diff : Z) :
  (diff < 0 /\ hashMatchesDifficulty h diff = Throw RangeError)
  \/ (0 <= diff
      /\ exists b, hashMatchesDifficulty h diff = Ok b).
Proof.
  unfold hashMatchesDifficulty, repeatZero.
  destruct (Z.ltb_spec diff 0); simpl; [left | right]; eauto.
Qed.

Lemma findBlockFrom_sound (fuel : nat) (idx : Z) (prevHash : string)
    (ts : Z) (txs : list Transaction) (diff : Z) :
  forall (start : Z) (b : Block),
    findBlockFrom fuel idx prevHash ts txs diff start
    = Some (Ok b) ->
    exists n,
      start <= n < start + Z.of_nat fuel
      /\ b = mkBlock idx
                     (calculateHash idx prevHash ts txs
                                    diff n)
                     prevHash ts txs diff n
      /\ hashMatchesDifficulty (hash b) diff = Ok true
      /\ forall m, start <= m < n ->
                   hashMatchesDifficulty
                     (calculateHash idx prevHash ts txs
                                    diff m) diff
                   = Ok false.
Proof.
  induction fuel as [|fuel IH]; intros start b; simpl; [discriminate|].
  destruct (hashMatchesDifficulty _ diff) as [[|]|e] eqn:Hm;
    try discriminate.
  - intros [= <-]. exists start. simpl.
    split; [lia|]. split; [reflexivity|]. split; [exact Hm|].
    intros m Hlt. lia.
  - intros H. destruct (IH _ _ H) as (n & Hn & Hb & Hok & Hmin).
    exists n. split; [lia|]. split; [exact Hb|]. split; [exact Hok|].
    intros m Hlt. destruct (Z.eq_dec m start) as [->|Hne];
      [exact Hm | apply Hmin; lia].
Qed.

Lemma findBlockFrom_complete (idx : Z) (prevHash : string)
    (ts : Z) (txs : list Transaction) (diff : Z) (n : Z) :
  hashMatchesDifficulty
    (calculateHash idx prevHash ts txs diff n)
    diff = Ok true ->
  forall (fuel : nat) (start : Z),
    start <= n < start + Z.of_nat fuel ->
    exists b,
      findBlockFrom fuel idx prevHash ts txs diff start
      = Some (Ok b)
      /\ start <= nonce b <= n.
Proof.
  intros Hn. induction fuel as [|fuel IH]; intros start Hr; [lia|].
  simpl.
  destruct (hashMatchesDifficulty
              (calculateHash idx prevHash ts txs diff
                             start) diff) as [[|]|e] eqn:Hm.
  - eexists. split; [reflexivity|]. simpl. lia.
  - destruct (Z.eq_dec start n) as [->|Hne]; [congruence|].
    destruct (IH (start + 1)) as (b & Hb & Hnb); [lia|].
    exists b. split; [exact Hb | lia].
  - exfalso.
    destruct (hashMatchesDifficulty_cases
                (calculateHash idx prevHash ts txs diff
                               start) diff) as [[Hd _] | [_ [b Hb]]];
      [|congruence].
    destruct (hashMatchesDifficulty_cases
                (calculateHash idx prevHash ts txs diff
                               n) diff) as [[_ Ht] | [Hd' _]];
      [congruence | lia].
Qed.

(** X11. [findBlock] returns the block with the least nonce, counted from
    0, whose hash meets the difficulty, and that hash is the hash of the
    block's content; it returns within [n + 1] rounds when nonce [n] meets
    the difficulty; at difficulty 0 it returns at once with nonce 0; and
    for a negative difficulty it throws a [RangeError] in the first
    round. *)
Theorem findBlock_spec (idx : Z) (prevHash : string) (ts : Z)
    (txs : list Transaction) (diff : Z) :
  (forall fuel b,
      findBlock fuel idx prevHash ts txs diff
      = Some (Ok b) ->
      calculateHashForBlock b = hash b
      /\ hashMatchesDifficulty (hash b) (difficulty b) = Ok true
      /\ 0 <= nonce b
      /\ index b = idx /\ previousHash b = prevHash
      /\ timestamp b = ts /\ data b = txs
      /\ difficulty b = diff
      /\ forall m, 0 <= m < nonce b ->
                   hashMatchesDifficulty
                     (calculateHash idx prevHash ts txs
                                    diff m) diff
                   = Ok false)
  /\ (forall n fuel,
        0 <= n < Z.of_nat fuel ->
        hashMatchesDifficulty
          (calculateHash idx prevHash ts txs diff n)
          diff = Ok true ->
        exists b,
          findBlock fuel idx prevHash ts txs diff
          = Some (Ok b)
          /\ nonce b <= n)
  /\ (forall fuel,
        diff = 0 ->
        findBlock (S fuel) idx prevHash ts txs diff
        = Some (Ok (mkBlock idx
                      (calculateHash idx prevHash ts txs 0 0)
                      prevHash ts txs 0 0)))
  /\ (forall fuel,
        diff < 0 ->
        findBlock (S fuel) idx prevHash ts txs diff
        = Some (Throw RangeError)).
Proof.
  split; [|split; [|split]].
  - intros fuel b H. unfold findBlock in H.
    destruct (findBlockFrom_sound _ _ _ _ _ _ _ _ H)
      as (n & Hn & -> & Hok & Hmin).
    simpl in *. repeat split; try reflexivity; try lia; assumption.
  - intros n fuel Hn Hm. unfold findBlock.
    destruct (findBlockFrom_complete _ _ _ _ _ n Hm fuel 0)
      as (b & Hb & Hnb); [lia|].
    exists b. split; [exact Hb | lia].
  - intros fuel ->. unfold findBlock. simpl.
    unfold hashMatchesDifficulty, repeatZero. simpl.
    now destruct (hexToBinary _).
  - intros fuel Hd. unfold findBlock. simpl.
    unfold hashMatchesDifficulty, repeatZero.
    destruct (Z.ltb_spec diff 0); [reflexivity | lia].
Qed.

End MiningFacts.

(** ** The callers of [addBlockToChain] and [replaceChain] *)

Section CallerFacts.

Context {host : Host}.








Lemma generateRawNextBlock_reachable (s0 s s' : State) (fuel : nat)
    (now now' : Z) (blockData : list Transaction) (r : option Block)
    (msgs : list Message) :
  reachable s0 s ->
  generateRawNextBlock fuel now now' s blockData = Some (Ok (r, s', msgs)) ->
  reachable s0 s'.
Proof.
  intros Hreach. unfold generateRawNextBlock.
  destruct (getDifficulty s (getBlockchain s)) as [d|e]; [|discriminate].
  destruct (getLatestBlock s) as [prev|]; [|discriminate].
  destruct (findBlock fuel _ _ now blockData d) as [[b|e]|];
    try discriminate.
  destruct (addBlockToChain now' s b) as [[added s'']|e] eqn:Hadd;
    simpl; [|discriminate].
  assert (Hr : reachable s0 s'')
    by (eapply reachable_addBlockToChain; eassumption).
  destruct added; intros [= _ <- _]; exact Hr.
Qed.


(** X13. When the latest block stands on an interval boundary, the block
    nine positions before it has difficulty 0 and more than 200 seconds
    lie between the two, [getDifficulty] returns -1 and
    [generateRawNextBlock] throws a [RangeError], whatever it is asked to
    mine. *)
Theorem generateRawNextBlock_negative_difficulty (s : State)
    (latestBlock prevAdjustmentBlock : Block) :
  getLatestBlock s = Some latestBlock ->
  atBoundary latestBlock ->
  arrayGet (blockchain s)
    (Z.of_nat (List.length (blockchain s)) - DIFFICULTY_ADJUSTMENT_INTERVAL)
  = Some prevAdjustmentBlock ->
  difficulty prevAdjustmentBlock = 0 ->
  200 < timestamp latestBlock - timestamp prevAdjustmentBlock ->
  getDifficulty s (blockchain s) = Ok (-1)
  /\ forall fuel now now' blockData,
       generateRawNextBlock (S fuel) now now' s blockData
       = Some (Throw RangeError).
Proof.
  intros Hlatest Hb Hprev Hd0 Hslow.
  assert (Hd : getDifficulty s (blockchain s) = Ok (-1)).
  { destruct (getDifficulty_same_length s (blockchain s) latestBlock
                eq_refl Hlatest) as [_ Hat].
    rewrite (Hat Hb _ Hprev). unfold retarget.
    unfold BLOCK_GENERATION_INTERVAL, DIFFICULTY_ADJUSTMENT_INTERVAL.
    change (10 * 10 / 2) with 50. change (10 * 10 * 2) with 200.
    destruct (Z.ltb_spec
                (timestamp latestBlock - timestamp prevAdjustmentBlock) 50);
      [lia|].
    destruct (Z.gtb_spec
                (timestamp latestBlock - timestamp prevAdjustmentBlock) 200);
      [|lia].
    rewrite Hd0. reflexivity. }
  split; [exact Hd|].
  intros fuel now now' blockData.
  unfold generateRawNextBlock, getBlockchain. rewrite Hd, Hlatest.
  unfold findBlock. simpl. reflexivity.
Qed.


End CallerFacts.

(** ** A block with a coinbase transaction only *)

Section CoinbaseFacts.

Context {host : Host}.


End CoinbaseFacts.

(** ** The socket list *)

Section SocketFacts.

Lemma splice1_last {A : Type} (a : list A) : splice1 a (-1) = removelast a.
Proof.
  unfold splice1.
  assert (Hneg : (-1 <? 0) = true) by reflexivity. rewrite Hneg.
  assert (Hn : Z.to_nat (Z.max (Z.of_nat (List.length a) + -1) 0)
               = pred (List.length a)) by lia.
  rewrite Hn, removelast_firstn_len.
  rewrite skipn_all2; [apply app_nil_r | lia].
Qed.

Lemma splice1_at {A : Type} (before after : list A) (x : A) :
  splice1 (before ++ x :: after) (Z.of_nat (List.length before))
  = (before ++ after)%list.
Proof.
  unfold splice1.
  destruct (Z.ltb_spec (Z.of_nat (List.length before)) 0); [lia|].
  rewrite length_app. simpl List.length.
  replace (Z.to_nat (Z.min (Z.of_nat (List.length before))
                       (Z.of_nat (List.length before + S (List.length after)))))
    with (List.length before) by lia.
  rewrite firstn_app, firstn_all, Nat.sub_diag. simpl firstn.
  rewrite app_nil_r. f_equal.
  rewrite skipn_app, skipn_all2 by lia.
  replace (List.length before + 1 - List.length before)%nat with 1%nat
    by lia.
  reflexivity.
Qed.

Lemma indexOfFrom_absent (a : list WebSocket) (x : WebSocket) (i : Z) :
  ~ In x a -> indexOfFrom i a x = -1.
Proof.
  revert i. induction a as [|y a IH]; intros i Hx; simpl; [reflexivity|].
  destruct (Nat.eqb_spec y x) as [->|_].
  - exfalso. apply Hx. now left.
  - apply IH. intros H. apply Hx. now right.
Qed.

Lemma indexOfFrom_first (before after : list WebSocket) (x : WebSocket)
    (i : Z) :
  ~ In x before ->
  indexOfFrom i (before ++ x :: after) x = i + Z.of_nat (List.length before).
Proof.
  revert i. induction before as [|y before IH]; intros i Hx; simpl.
  - rewrite Nat.eqb_refl. lia.
  - destruct (Nat.eqb_spec y x) as [->|_].
    + exfalso. apply Hx. now left.
    + rewrite IH; [lia|]. intros H. apply Hx. now right.
Qed.

(** X16. [closeConnection] removes the first entry of the socket from the
    list; but for a socket that is not in the list it removes the last
    entry, whichever socket that is.  So when the handler runs twice for
    one socket (it is registered for both the [close] and the [error]
    event), the second run drops the socket at the end of the list. *)
Theorem closeConnection_spec (sockets : list WebSocket) (myWs : WebSocket) :
  (~ In myWs sockets -> closeConnection sockets myWs = removelast sockets)
  /\ (forall before after,
        sockets = (before ++ myWs :: after)%list ->
        ~ In myWs before ->
        closeConnection sockets myWs = (before ++ after)%list)
  /\ (forall before after other,
        sockets = (before ++ myWs :: after ++ [other])%list ->
        NoDup sockets ->
        closeConnection (closeConnection sockets myWs) myWs
        = (before ++ after)%list).
Proof.
  assert (Habsent : forall l, ~ In myWs l ->
                              closeConnection l myWs = removelast l).
  { intros l Hl. unfold closeConnection, indexOf.
    rewrite indexOfFrom_absent by assumption. apply splice1_last. }
  assert (Hfirst : forall before after,
             ~ In myWs before ->
             closeConnection (before ++ myWs :: after) myWs
             = (before ++ after)%list).
  { intros before after Hb. unfold closeConnection, indexOf.
    rewrite indexOfFrom_first by assumption. simpl. apply splice1_at. }
  split; [apply Habsent|]. split.
  - intros before after -> Hb. now apply Hfirst.
  - intros before after other -> Hnd.
    apply NoDup_remove_2 in Hnd.
    assert (Hb : ~ In myWs before).
    { intros H. apply Hnd. apply in_or_app. now left. }
    rewrite Hfirst by assumption.
    rewrite Habsent by exact Hnd.
    rewrite app_assoc. apply removelast_last.
Qed.

End SocketFacts.

(** ** [toHexString] *)

Section HexFacts.

Lemma bytes_all (n : Z) : 0 <= n < 256 -> In n allBytes.
Proof.
  intros Hn. unfold allBytes. apply in_map_iff. exists (Z.to_nat n).
  split; [lia|]. apply in_seq. lia.
Qed.

Lemma byteHex_table :
  forallb (fun x =>
             Nat.eqb (String.length (byteHex x)) 2
             && forallb (fun y => negb (String.eqb (byteHex x) (byteHex y))
                                  || (x =? y))
                        allBytes)
          allBytes = true.
Proof. vm_compute. reflexivity. Qed.

Lemma byteHex_length (n : Z) :
  0 <= n < 256 -> String.length (byteHex n) = 2%nat.
Proof.
  intros Hn. pose proof byteHex_table as H.
  rewrite forallb_forall in H. specialize (H n (bytes_all n Hn)).
  apply andb_prop in H. destruct H as [H _]. now apply Nat.eqb_eq in H.
Qed.

Lemma byteHex_inj (x y : Z) :
  0 <= x < 256 -> 0 <= y < 256 -> byteHex x = byteHex y -> x = y.
Proof.
  intros Hx Hy E. pose proof byteHex_table as H.
  rewrite forallb_forall in H. specialize (H x (bytes_all x Hx)).
  apply andb_prop in H. destruct H as [_ H].
  rewrite forallb_forall in H. specialize (H y (bytes_all y Hy)).
  rewrite E, String.eqb_refl in H. simpl in H. now apply Z.eqb_eq in H.
Qed.

Lemma land_byte (b : Z) : 0 <= Z.land b 255 < 256.
Proof.
  change 255 with (Z.ones 8). rewrite Z.land_ones by lia.
  apply Z.mod_pos_bound. reflexivity.
Qed.

Lemma concat_empty_cons (x : string) (l : list string) :
  String.concat "" (x :: l) = x ++ String.concat "" l.
Proof.
  destruct l as [|y l]; simpl.
  - clear. induction x as [|c x IH]; simpl; [reflexivity | now rewrite <- IH].
  - reflexivity.
Qed.

Lemma length_append (a b : string) :
  String.length (a ++ b) = (String.length a + String.length b)%nat.
Proof. induction a as [|c a IH]; simpl; [reflexivity | now rewrite IH]. Qed.

Lemma append_two_chars (a a' r r' : string) :
  String.length a = 2%nat -> String.length a' = 2%nat ->
  a ++ r = a' ++ r' -> a = a' /\ r = r'.
Proof.
  destruct a as [|c1 [|c2 [|? ?]]]; try discriminate.
  destruct a' as [|d1 [|d2 [|? ?]]]; try discriminate.
  simpl. intros _ _ [= -> -> ->]. auto.
Qed.

(** X17. [toHexString] writes two hexadecimal digits for every byte, the
    byte taken modulo 256: the text is twice as long as the array, and two
    arrays give the same text exactly when they agree modulo 256, byte by
    byte. *)
Theorem toHexString_spec (byteArray byteArray' : list Z) :
  String.length (toHexString byteArray)
  = (2 * List.length byteArray)%nat
  /\ (toHexString byteArray = toHexString byteArray' <->
      map (fun byte => byte mod 256) byteArray
      = map (fun byte => byte mod 256) byteArray').
Proof.
  assert (Hmod : forall b, Z.land b 255 = b mod 256).
  { intros b. change 255 with (Z.ones 8). now rewrite Z.land_ones by lia. }
  assert (Hstep : forall b l,
             toHexString (b :: l) = byteHex (Z.land b 255) ++ toHexString l).
  { intros b l. unfold toHexString. simpl map.
    now rewrite concat_empty_cons. }
  split.
  - induction byteArray as [|b l IH]; [reflexivity|].
    rewrite Hstep, length_append, IH, byteHex_length by apply land_byte.
    simpl List.length. lia.
  - revert byteArray'.
    induction byteArray as [|b l IH]; intros [|b' l'].
    + tauto.
    + split; [|discriminate]. rewrite Hstep. intros H.
      apply (f_equal String.length) in H.
      rewrite length_append, byteHex_length in H by apply land_byte.
      discriminate.
    + split; [|discriminate]. rewrite Hstep. intros H.
      apply (f_equal String.length) in H.
      rewrite length_append, byteHex_length in H by apply land_byte.
      discriminate.
    + rewrite !Hstep. simpl map. split.
      * intros H. apply append_two_chars in H;
          try (apply byteHex_length; apply land_byte).
        destruct H as [Hb Hl]. apply byteHex_inj in Hb;
          try apply land_byte.
        rewrite !Hmod in Hb. rewrite Hb. f_equal. now apply IH.
      * intros [= Hb Hl]. rewrite !Hmod, Hb. f_equal. now apply IH.
Qed.

End HexFacts.

(** ** The further properties on the example host *)

Section IdentifierFacts.

Context {host : Host}.

Lemma map_duplicateKey (txIns txIns' : list TxIn) :
  map referenceOf txIns = map referenceOf txIns' ->
  map duplicateKey txIns = map duplicateKey txIns'.
Proof.
  intros H.
  assert (E : forall l, map duplicateKey l
                        = map (fun r => fst r ++ numToString (snd r))
                              (map referenceOf l))
    by (intros l; rewrite map_map; reflexivity).
  now rewrite !E, H.
Qed.

(** X18. The transaction id covers, of the inputs, only the outputs they
    name, and it reads them as one text without separators: two
    transactions with the same outputs whose inputs name the same outputs
    in the same order have the same id, whatever their signatures; and so
    have two transactions that differ only in that one starts with the
    input [(s, 12)] and the other with the input [(s1, 2)]. *)
Theorem getTransactionId_coverage (t t' : Transaction) :
  txOuts t = txOuts t' ->
  (map referenceOf (txIns t) = map referenceOf (txIns t') ->
   getTransactionId t = getTransactionId t')
  /\ (forall s sig sig' rest,
        txIns t = mkTxIn s 12 sig :: rest ->
        txIns t' = mkTxIn (s ++ "1") 2 sig' :: rest ->
        getTransactionId t = getTransactionId t').
Proof.
  intros Hout. split.
  - intros Hin. unfold getTransactionId. rewrite Hout.
    fold duplicateKey.
    change (map (fun txIn => txOutId txIn ++ numToString (txOutIndex txIn)))
      with (map duplicateKey).
    now rewrite (map_duplicateKey _ _ Hin).
  - intros s sig sig' rest Ht Ht'. unfold getTransactionId.
    rewrite Hout, Ht, Ht'. cbn [map txOutId txOutIndex].
    replace ((s ++ "1") ++ numToString 2) with (s ++ numToString 12);
      [reflexivity|].
    change (numToString 12) with ("1" ++ numToString 2).
    now rewrite append_assoc.
Qed.

End IdentifierFacts.

Section FurtherExamples.

Import Examples MoreExamples.
#[local] Existing Instance exampleHost.


Lemma hasDuplicates_iff_witness :
  hasDuplicates [inputA; inputA] = true.
Proof.
  apply (proj2 (proj2 (hasDuplicates_iff [inputA; inputA]))).
  intros H. inversion H as [|? ? Hnotin _]. apply Hnotin. now left.
Defined.



Lemma validity_persists_witness :
  isValidNewBlock (later + 100) honestBlock genesisBlock = Ok true.
Proof.
  apply (proj1 (validity_persists (constClock later) laterClock
                  (fun j => ltac:(unfold laterClock, constClock; lia)))
           0%nat honestBlock genesisBlock).
  vm_compute. reflexivity.
Defined.

Lemma block_hash_ignores_transactions_witness :
  data honestBlock <> data tamperedBlock
  /\ calculateHashForBlock honestBlock = calculateHashForBlock tamperedBlock.
Proof.
  split; [vm_compute; discriminate|].
  apply (proj1 (block_hash_ignores_transactions honestBlock tamperedBlock
                  ltac:(unfold sameHeader; simpl; tauto))).
Defined.


Lemma reachable_chain_wellformed_witness :
  nth_error (blockchain afterReplace) 0 = Some genesisBlock
  /\ index easyBlock = 1
  /\ hash genesisBlock = previousHash easyBlock.
Proof.
  destruct (reachable_chain_wellformed (host := exampleHost) []
              startState afterReplace startState_initial
              afterReplace_reachable) as (Hfirst & Hindex & Hlink).
  assert (H0 : nth_error (blockchain afterReplace) 0 = Some genesisBlock)
    by (vm_compute; reflexivity).
  assert (H1 : nth_error (blockchain afterReplace) 1 = Some easyBlock)
    by (vm_compute; reflexivity).
  split; [exact Hfirst|].
  split; [exact (Hindex 1%nat easyBlock H1)|].
  exact (proj1 (Hlink 0%nat genesisBlock easyBlock H0 H1)).
Defined.



Lemma mineAt_reachable (s : State) (now : Z) :
  reachable startState s -> reachable startState (mineAt s now).
Proof.
  intros Hreach. unfold mineAt.
  destruct (generateRawNextBlock 1 now now s _)
    as [[[[r s'] msgs]|e]|] eqn:Hg; try exact Hreach.
  exact (generateRawNextBlock_reachable _ _ _ _ _ _ _ _ _ Hreach Hg).
Defined.

Lemma slowLedger_reachable : reachable startState slowLedger.
Proof.
  unfold slowLedger. generalize slowTimes.
  assert (H : forall times s,
             reachable startState s ->
             reachable startState (fold_left mineAt times s)).
  { induction times as [|now times IH]; intros s Hs; [exact Hs|].
    simpl. apply IH. now apply mineAt_reachable. }
  intros times. apply H. apply reachable_start.
Defined.

Lemma getDifficulty_on_reachable_witness :
  exists latestBlock,
    getLatestBlock slowLedger = Some latestBlock
    /\ (atBoundary latestBlock ->
        exists prevAdjustmentBlock,
          nth_error (blockchain slowLedger)
                    (Z.to_nat (index latestBlock - 9))
          = Some prevAdjustmentBlock
          /\ index prevAdjustmentBlock = index latestBlock - 9
          /\ getDifficulty slowLedger (blockchain slowLedger)
             = Ok (retarget latestBlock prevAdjustmentBlock)).
Proof.
  destruct (getDifficulty_on_reachable (host := exampleHost) [] startState slowLedger
              startState_initial slowLedger_reachable)
    as (latestBlock & Hl & _ & Hat & _).
  exists latestBlock. split; [exact Hl | exact Hat].
Defined.

Lemma findBlock_spec_witness :
  findBlock 1 1 (hash genesisBlock) 1465154706
            [getCoinbaseTransaction minerAddress 1] 0
  = Some (Ok honestBlock).
Proof.
  rewrite (proj1 (proj2 (proj2 (findBlock_spec 1 (hash genesisBlock)
                                  1465154706
                                  [getCoinbaseTransaction minerAddress 1] 0)))
             0%nat eq_refl).
  vm_compute. reflexivity.
Defined.


Lemma generateRawNextBlock_negative_difficulty_witness :
  reachable startState slowLedger
  /\ getDifficulty slowLedger (blockchain slowLedger) = Ok (-1)
  /\ forall fuel now now' blockData,
       generateRawNextBlock (S fuel) now now' slowLedger blockData
       = Some (Throw RangeError).
Proof.
  split; [exact slowLedger_reachable|].
  apply (generateRawNextBlock_negative_difficulty slowLedger slowLatest
           slowPrevious).
  - vm_compute. reflexivity.
  - split; [vm_compute; reflexivity | vm_compute; discriminate].
  - vm_compute. reflexivity.
  - vm_compute. reflexivity.
  - vm_compute. reflexivity.
Defined.



Lemma closeConnection_spec_witness :
  closeConnection (closeConnection [1; 2; 3]%nat 2%nat) 2%nat = [1]%nat.
Proof.
  exact (proj2 (proj2 (closeConnection_spec [1; 2; 3]%nat 2%nat))
           [1]%nat [] 3%nat eq_refl
           ltac:(repeat constructor; simpl; lia)).
Defined.

Lemma getTransactionId_coverage_witness :
  mkTransaction "" [inputB] [] <> mkTransaction "" [inputA] []
  /\ getTransactionId (mkTransaction "" [inputB] [])
     = getTransactionId (mkTransaction "" [inputA] []).
Proof.
  split; [discriminate|].
  exact (proj2 (getTransactionId_coverage (mkTransaction "" [inputB] [])
                  (mkTransaction "" [inputA] []) eq_refl)
           "a" "" "" [] eq_refl eq_refl).
Defined.

End FurtherExamples.
